(** * praxis: manifest environment resolution and the local convergence engine

    A shallow embedding of
    - [manifest.Service.Env], [manifest.parseEnv], [manifest.Service.BuildHash]
      and [manifest.Services.Find] (package [manifest]);
    - [converge], [convergePrune], [resourcePort], [resourceURL],
      [resourceVolumes], [balancerContainers], [resourceContainers] and
      [serviceContainers] (package [local], file provider/local/converge.go).

    Go maps are [gmap]s, slices are lists, [int] is [Z], strings are byte
    strings.  A Go function returning [(T, error)] returns [result T].
    Code that talks to the container runtime is written in a state-and-error
    monad over an abstract world, and records every mutating call it makes. *)

From Stdlib Require Import ZArith String Ascii List.
From stdpp Require Import base option list gmap strings pretty.

Open Scope string_scope.
Open Scope Z_scope.
Open Scope list_scope.

(** ** Errors and results *)

(** The errors the embedded code creates with [fmt.Errorf], one constructor
    per message, and [ErrExternal] for an error handed back by a collaborator
    whose code is not part of the embedding. *)
Inductive error : Type :=
  | ErrRequiredEnv (key : string)            (* "required env: %s" *)
  | ErrInvalidEnvironment                    (* "invalid environment" *)
  | ErrServiceNotFound (name : string)       (* "could not find service: %s" *)
  | ErrUnknownResourceType (kind : string)   (* "unknown resource type: %s" *)
  | ErrInvalidBalancerEndpoint (balancer port : string)
                                             (* "invalid balancer endpoint: %s:%s" *)
  | ErrBackgroundInTest                      (* "can not run background services in test" *)
  | ErrUnknownStage (stage : Z)              (* "unknown stage: %d" *)
  | ErrExternal (msg : string).

Inductive result (A : Type) : Type :=
  | Ok (a : A)
  | Err (e : error).
Arguments Ok {A} a.
Arguments Err {A} e.

Definition is_Err {A} (r : result A) : Prop := ∃ e, r = Err e.

#[global] Instance result_ret : MRet result := λ A a, Ok a.
#[global] Instance result_bind : MBind result := λ A B k r,
  match r with
  | Ok a => k a
  | Err e => Err e
  end.

(** ** The Go standard library *)

(** Library functions whose behaviour depends on Unicode tables are taken
    as an interface: every theorem stated over [GoLib] holds for whatever
    these functions compute. *)
Class GoLib : Type := {
  strings_ToUpper : string → string;
  strings_TrimSpace : string → string;
  strconv_Quote : string → string;        (* the verb %q on a string *)
}.

(** [strings.Index(s, "=")] together with the two slices [s[:m]] and
    [s[m+1:]] taken around the first ['=']. *)
Fixpoint cut_equals (s : string) : option (string * string) :=
  match s with
  | EmptyString => None
  | String c rest =>
      if Ascii.eqb c "="%char then Some (EmptyString, rest)
      else match cut_equals rest with
           | Some (k, v) => Some (String c k, v)
           | None => None
           end
  end.

(** [strings.SplitN(s, "=", 2)]: the whole string when it has no ['='],
    otherwise what is before and what is after the first one. *)
Definition SplitN_equals_2 (s : string) : list string :=
  match cut_equals s with
  | None => [s]
  | Some (k, v) => [k; v]
  end.

(** [strings.Join]. *)
Fixpoint Join (elems : list string) (sep : string) : string :=
  match elems with
  | [] => ""
  | [e] => e
  | e :: rest => e +:+ sep +:+ Join rest sep
  end.

(** The verb [%v] on a [[]string]: the elements, separated by one space,
    between square brackets. *)
Definition fmt_v_strings (l : list string) : string := "[" +:+ Join l " " +:+ "]".

(** The verb [%d], and [strconv.Itoa]. *)
Definition Itoa (n : Z) : string := pretty n.

Definition hex_digit (n : N) : ascii :=
  match n with
  | 0%N => "0" | 1%N => "1" | 2%N => "2" | 3%N => "3" | 4%N => "4"
  | 5%N => "5" | 6%N => "6" | 7%N => "7" | 8%N => "8" | 9%N => "9"
  | 10%N => "a" | 11%N => "b" | 12%N => "c" | 13%N => "d" | 14%N => "e"
  | _ => "f"
  end%char.

(** The verb [%x] on a byte array: two lower-case digits per byte. *)
Fixpoint fmt_x (bytes : list ascii) : string :=
  match bytes with
  | [] => ""
  | b :: rest =>
      let n := N_of_ascii b in
      String (hex_digit (n / 16)) (String (hex_digit (n mod 16)) (fmt_x rest))
  end.

(** [crypto/sha1]: SHA-1 on 32-bit words kept in [Z], every sum reduced
    modulo 2^32. *)
Module SHA1.
Definition mask32 (x : Z) : Z := Z.land x 4294967295.
Definition add32 (x y : Z) : Z := mask32 (x + y).
Definition rotl (n x : Z) : Z :=
  mask32 (Z.lor (Z.shiftl x n) (Z.shiftr x (32 - n))).

(** The message followed by the byte 0x80, zero bytes up to 56 modulo 64,
    and the length in bits as eight big-endian bytes. *)
Definition pad (msg : list Z) : list Z :=
  let len := Z.of_nat (length msg) in
  let zeros := Z.to_nat ((55 - len) mod 64) in
  let bits := 8 * len in
  msg ++ [128] ++ replicate zeros 0
      ++ ((λ i, Z.land (Z.shiftr bits (8 * (7 - i))) 255) <$> seqZ 0 8).

Fixpoint words (bytes : list Z) (n : nat) : list Z :=
  match n, bytes with
  | S n', a :: b :: c :: d :: rest =>
      (Z.shiftl a 24 + Z.shiftl b 16 + Z.shiftl c 8 + d) :: words rest n'
  | _, _ => []
  end.

(** The message schedule, latest word first. *)
Fixpoint schedule (n : nat) (rev_w : list Z) : list Z :=
  match n with
  | O => rev_w
  | S n' =>
      let x i := nth i rev_w 0 in
      schedule n' (rotl 1 (Z.lxor (Z.lxor (x 2%nat) (x 7%nat))
                                  (Z.lxor (x 13%nat) (x 15%nat))) :: rev_w)
  end.

Definition round (t : Z) (st : Z * Z * Z * Z * Z) (wt : Z) : Z * Z * Z * Z * Z :=
  let '(a, b, c, d, e) := st in
  let '(f, k) :=
    if t <? 20 then
      (Z.lor (Z.land b c) (Z.land (Z.lxor b 4294967295) d), 1518500249)
    else if t <? 40 then (Z.lxor (Z.lxor b c) d, 1859775393)
    else if t <? 60 then
      (Z.lor (Z.lor (Z.land b c) (Z.land b d)) (Z.land c d), 2400959708)
    else (Z.lxor (Z.lxor b c) d, 3395469782) in
  (add32 (add32 (add32 (add32 (rotl 5 a) f) e) k) wt, a, rotl 30 b, c, d).

Fixpoint rounds (t : Z) (ws : list Z) (st : Z * Z * Z * Z * Z)
    : Z * Z * Z * Z * Z :=
  match ws with
  | [] => st
  | wt :: rest => rounds (t + 1) rest (round t st wt)
  end.

Definition block (h : Z * Z * Z * Z * Z) (bytes : list Z) : Z * Z * Z * Z * Z :=
  let ws := rev (schedule 64 (rev (words bytes 16))) in
  let '(h0, h1, h2, h3, h4) := h in
  let '(a, b, c, d, e) := rounds 0 ws h in
  (add32 h0 a, add32 h1 b, add32 h2 c, add32 h3 d, add32 h4 e).

Fixpoint blocks (n : nat) (h : Z * Z * Z * Z * Z) (bytes : list Z)
    : Z * Z * Z * Z * Z :=
  match n with
  | O => h
  | S n' => blocks n' (block h (take 64 bytes)) (drop 64 bytes)
  end.

Definition word_bytes (x : Z) : list Z :=
  (λ i, Z.land (Z.shiftr x (8 * (3 - i))) 255) <$> seqZ 0 4.

Definition digest (msg : list Z) : list Z :=
  let padded := pad msg in
  let '(h0, h1, h2, h3, h4) :=
    blocks (length padded / 64)
           (1732584193, 4023233417, 2562383102, 271733878, 3285377520) padded in
  word_bytes h0 ++ word_bytes h1 ++ word_bytes h2 ++ word_bytes h3 ++ word_bytes h4.

(** [sha1.Sum]: the 20 bytes of the digest. *)
Definition Sum (s : string) : list ascii :=
  (λ b, ascii_of_N (Z.to_N b))
    <$> digest ((λ c, Z.of_N (N_of_ascii c)) <$> list_ascii_of_string s).
End SHA1.

(** ** Package manifest *)

Module ServiceBuild.
Record t : Type := mk { Args : list string; Path : string }.
End ServiceBuild.

Module ServicePort.
Record t : Type := mk { Port : Z; Scheme : string }.
End ServicePort.

Module ServiceCommand.
Record t : Type := mk { Development : string; Test : string; Production : string }.
End ServiceCommand.

Module ServiceCount.
Record t : Type := mk { Min : Z }.
End ServiceCount.

Module ServiceScale.
Record t : Type := mk { Count : ServiceCount.t; Memory : Z }.
End ServiceScale.

(** [manifest.Service].  The fields [Build], [Environment], [Image], [Test]
    and [Volumes] are those of the declaration in package manifest; [Port],
    [Command], [Scale] and [Resources] are the ones converge.go reads. *)
Module Service.
Record t : Type := mk {
  Name : string;
  Build : ServiceBuild.t;
  Command : ServiceCommand.t;
  Environment : list string;
  Image : string;
  Port : ServicePort.t;
  Resources : list string;
  Scale : ServiceScale.t;
  Test : string;
  Volumes : list string;
}.
End Service.

(** [func parseEnv(env []string) map[string]string] *)
Definition parseEnv (env : list string) : gmap string string :=
  foldl (λ parsed e,
           match SplitN_equals_2 e with
           | [k; v] => <[k:=v]> parsed
           | _ => parsed
           end) ∅ env.

(** The loop of [Service.Env] over [s.Environment], with [full] the map
    built so far. *)
Fixpoint Env_loop (penv : gmap string string) (entries : list string)
    (full : gmap string string) : result (gmap string string) :=
  match entries with
  | [] => Ok full
  | e :: rest =>
      match SplitN_equals_2 e with
      | [k] =>
          match penv !! k with
          | None => Err (ErrRequiredEnv k)
          | Some v => Env_loop penv rest (<[k:=v]> full)
          end
      | [k; d] =>
          match penv !! k with
          | Some v => Env_loop penv rest (<[k:=v]> full)
          | None => Env_loop penv rest (<[k:=d]> full)
          end
      | _ => Err ErrInvalidEnvironment
      end
  end.

(** [func (s Service) Env(env []string) (map[string]string, error)] *)
Definition Env (s : Service.t) (env : list string) : result (gmap string string) :=
  Env_loop (parseEnv env) (Service.Environment s) ∅.

(** [func (s Service) BuildHash() string] *)
Definition BuildHash {lib : GoLib} (s : Service.t) : string :=
  fmt_x (SHA1.Sum
    ("build[path=" +:+ strconv_Quote (ServiceBuild.Path (Service.Build s))
     +:+ ", args=" +:+ fmt_v_strings (ServiceBuild.Args (Service.Build s))
     +:+ "] image=" +:+ strconv_Quote (Service.Image s))).

(** Whether the byte ['='] occurs in [s]. *)
Fixpoint has_equals (s : string) : bool :=
  match s with
  | EmptyString => false
  | String c rest => Ascii.eqb c "="%char || has_equals rest
  end.

(** The key an entry of [s.Environment] declares: [parts[0]]. *)
Definition entry_key (e : string) : string :=
  match SplitN_equals_2 e with
  | k :: _ => k
  | [] => e
  end.

(** The value [Env] stores for entry [e] when it does not fail on it: the
    ambient value of its key, or else its default. *)
Definition entry_value (penv : gmap string string) (e : string) : string :=
  match SplitN_equals_2 e with
  | [k; d] => default d (penv !! k)
  | _ => default "" (penv !! e)
  end.

(** The map [Env] builds from [full] when no required key is missing: each
    declared key with the value of the last entry that declares it. *)
Definition resolved (penv full : gmap string string) (entries : list string)
    : gmap string string :=
  foldl (λ m e, <[entry_key e := entry_value penv e]> m) full entries.

(** [func (ss Services) Find(name string)], returning the service found or
    an error. *)
Fixpoint Find (ss : list Service.t) (name : string) : result Service.t :=
  match ss with
  | [] => Err (ErrServiceNotFound name)
  | s :: rest => if String.eqb (Service.Name s) name then Ok s else Find rest name
  end.

(** The declarations of [manifest.Endpoint], [manifest.Balancer],
    [manifest.Resource], of the release, the system, the application, the
    provider and the container are not among the files at hand: each record
    below has the fields converge.go reads or writes, with the types it uses
    them at. *)
Module Endpoint.
Record t : Type := mk {
  Port : string;
  Protocol : string;
  Redirect : string;
  Target : string;
}.
End Endpoint.

Module Balancer.
Record t : Type := mk { Name : string; Endpoints : list Endpoint.t }.
End Balancer.

(** The field [Type] of the source is [Type_] here. *)
Module Resource.
Record t : Type := mk { Name : string; Type_ : string }.
End Resource.

(** [manifest.Manifest], with the three lists converge.go reads. *)
Module Manifest.
Record t : Type := mk {
  Balancers : list Balancer.t;
  Resources : list Resource.t;
  Services : list Service.t;
}.
End Manifest.

(** The stage constants [manifest.StageDevelopment], [manifest.StageTest]
    and [manifest.StageProduction]: integers whose values the embedded code
    does not depend on. *)
Class Stages : Type := {
  StageDevelopment : Z;
  StageTest : Z;
  StageProduction : Z;
}.

(** ** Package local: the data converge.go works on *)

Module Release.
Record t : Type := mk { Id : string; Build : string; Stage : Z }.
End Release.

Module System.
Record t : Type := mk { Image : string }.
End System.

Module App.
Record t : Type := mk { Name : string }.
End App.

Module Provider.
Record t : Type := mk { Name : string; Version : string }.
End Provider.

Module containerPort.
Record t : Type := mk { Host : Z; Container : Z }.
End containerPort.

(** [container]; a field a composite literal leaves out has Go's zero
    value: [""], [0], the empty list, the empty map. *)
Module container.
Record t : Type := mk {
  Name : string;
  Hostname : string;
  Port : containerPort.t;
  Memory : Z;
  Image : string;
  Command : list string;
  Env : gmap string string;
  Volumes : list string;
  Labels : gmap string string;
  Id : string;
}.

(** The assignment [cs[i].Id = id]. *)
Definition with_Id (c : t) (id : string) : t :=
  mk (Name c) (Hostname c) (Port c) (Memory c) (Image c) (Command c)
     (Env c) (Volumes c) (Labels c) id.
End container.

(** ** The resource catalog *)

(** [func resourcePort(kind string) (int, error)] *)
Definition resourcePort (kind : string) : result Z :=
  if decide (kind = "postgres") then Ok 5432
  else if decide (kind = "redis") then Ok 6379
  else Err (ErrUnknownResourceType kind).

(** [func resourceURL(app, kind, name string) (string, error)] *)
Definition resourceURL (app kind name : string) : result string :=
  if decide (kind = "postgres") then
    Ok ("postgres://postgres:password@" +:+ name +:+ ".resource." +:+ app
        +:+ ".convox:5432/app?sslmode=disable")
  else if decide (kind = "redis") then
    Ok ("redis://" +:+ name +:+ ".resource." +:+ app +:+ ".convox:6379/0")
  else Err (ErrUnknownResourceType kind).

(** [func resourceVolumes(app, kind, name string) ([]string, error)] *)
Definition resourceVolumes (app kind name : string) : result (list string) :=
  if decide (kind = "postgres") then
    Ok ["/var/convox/" +:+ app +:+ "/resource/" +:+ name +:+ ":/var/lib/postgresql/data"]
  else if decide (kind = "redis") then Ok []
  else Err (ErrUnknownResourceType kind).

(** ** The collaborators of the convergence engine *)

(** What converge.go calls and does not define: the release and build store
    ([helpers.AppManifest], [helpers.ReleaseManifest], [p.SystemGet],
    [p.AppList], [m.ServiceEnvironment]), the label query
    [containersByLabels], and the calls that change the world
    ([p.containerConverge], [p.containerRegister], [p.storageLogWrite] and
    the command [docker stop], whose outcome the code discards). *)
Class Collaborators (World : Type) : Type := {
  SystemGet : World → result System.t;
  AppManifest : string → World → result (Manifest.t * Release.t);
  ReleaseManifest : string → string → World → result (Manifest.t * Release.t);
  ServiceEnvironment : Manifest.t → string → World → result (gmap string string);
  AppList : World → result (list App.t);
  containersByLabels : gmap string string → World → result (list string);
  containerConverge : container.t → string → string → World → result string * World;
  containerRegister : container.t → World → result () * World;
  storageLogWrite : string → string → World → World;
  docker_stop : string → World → World;
}.

(** ** The container spec builder *)

Section Builder.
Context {lib : GoLib} {stages : Stages} {World : Type} {host : Collaborators World}.
Variable p : Provider.t.

(** The [switch] of [balancerContainers] on an endpoint: the first case
    that holds decides. *)
Definition balancerCommand (b : Balancer.t) (e : Endpoint.t) : result (list string) :=
  if decide (Endpoint.Redirect e ≠ "") then
    Ok ["balancer"; Endpoint.Protocol e; "redirect"; Endpoint.Redirect e]
  else if decide (Endpoint.Target e ≠ "") then
    Ok ["balancer"; Endpoint.Protocol e; "target"; Endpoint.Target e]
  else Err (ErrInvalidBalancerEndpoint (Balancer.Name b) (Endpoint.Port e)).

(** What [balancerCommand] returns for an endpoint that sets a redirect or
    a target. *)
Definition endpoint_command (e : Endpoint.t) : list string :=
  if decide (Endpoint.Redirect e ≠ "") then
    ["balancer"; Endpoint.Protocol e; "redirect"; Endpoint.Redirect e]
  else ["balancer"; Endpoint.Protocol e; "target"; Endpoint.Target e].

Definition balancerContainer (sys : System.t) (app release : string)
    (b : Balancer.t) (e : Endpoint.t) (command : list string) : container.t :=
  {| container.Name := Provider.Name p +:+ "." +:+ app +:+ ".balancer." +:+ Balancer.Name b;
     container.Hostname := Balancer.Name b +:+ ".balancer." +:+ app +:+ "." +:+ Provider.Name p;
     container.Port := {| containerPort.Host := 443; containerPort.Container := 3000 |};
     container.Memory := 64;
     container.Image := System.Image sys;
     container.Command := command;
     container.Env := ∅;
     container.Volumes := [];
     container.Labels := list_to_map [
       ("convox.rack", Provider.Name p);
       ("convox.version", Provider.Version p);
       ("convox.app", app);
       ("convox.release", release);
       ("convox.type", "balancer");
       ("convox.name", Balancer.Name b);
       ("convox.port", Endpoint.Port e)];
     container.Id := "" |}.

(** The inner loop of [balancerContainers], over the endpoints of [b]. *)
Fixpoint balancerEndpoints (sys : System.t) (app release : string) (b : Balancer.t)
    (es : list Endpoint.t) (cs : list container.t) : result (list container.t) :=
  match es with
  | [] => Ok cs
  | e :: rest =>
      command ← balancerCommand b e;
      balancerEndpoints sys app release b rest
        (cs ++ [balancerContainer sys app release b e command])
  end.

(** The outer loop of [balancerContainers]. *)
Fixpoint balancerLoop (sys : System.t) (app release : string)
    (balancers : list Balancer.t) (cs : list container.t) : result (list container.t) :=
  match balancers with
  | [] => Ok cs
  | b :: rest =>
      cs' ← balancerEndpoints sys app release b (Balancer.Endpoints b) cs;
      balancerLoop sys app release rest cs'
  end.

(** [func (p *Provider) balancerContainers(balancers, app, release, stage)] *)
Definition balancerContainers (balancers : list Balancer.t) (app release : string)
    (stage : Z) (w : World) : result (list container.t) :=
  let cs := [] in
  if decide (stage = StageTest) then Ok cs
  else
    sys ← SystemGet w;
    balancerLoop sys app release balancers cs.

Definition resourceContainer (app release : string) (r : Resource.t) (rp : Z)
    (vs : list string) : container.t :=
  {| container.Name := Provider.Name p +:+ "." +:+ app +:+ ".resource." +:+ Resource.Name r;
     container.Hostname := Resource.Name r +:+ ".resource." +:+ app +:+ "." +:+ Provider.Name p;
     container.Port := {| containerPort.Host := rp; containerPort.Container := rp |};
     container.Memory := 0;
     container.Image := "convox/" +:+ Resource.Type_ r;
     container.Command := [];
     container.Env := ∅;
     container.Volumes := vs;
     container.Labels := list_to_map [
       ("convox.rack", Provider.Name p);
       ("convox.version", Provider.Version p);
       ("convox.app", app);
       ("convox.release", release);
       ("convox.type", "resource");
       ("convox.name", Resource.Name r);
       ("convox.resource", Resource.Type_ r)];
     container.Id := "" |}.

(** The loop of [resourceContainers]. *)
Fixpoint resourceLoop (app release : string) (resources : list Resource.t)
    (cs : list container.t) : result (list container.t) :=
  match resources with
  | [] => Ok cs
  | r :: rest =>
      rp ← resourcePort (Resource.Type_ r);
      vs ← resourceVolumes app (Resource.Type_ r) (Resource.Name r);
      resourceLoop app release rest (cs ++ [resourceContainer app release r rp vs])
  end.

(** [func (p *Provider) resourceContainers(resources, app, release)] *)
Definition resourceContainers (resources : list Resource.t) (app release : string)
    : result (list container.t) :=
  resourceLoop app release resources [].

Definition endpointContainer (sys : System.t) (app release : string) (s : Service.t)
    : container.t :=
  {| container.Name := Provider.Name p +:+ "." +:+ app +:+ ".endpoint." +:+ Service.Name s;
     container.Hostname := Service.Name s +:+ "." +:+ app +:+ "." +:+ Provider.Name p;
     container.Port := {| containerPort.Host := 443; containerPort.Container := 3000 |};
     container.Memory := 64;
     container.Image := System.Image sys;
     container.Command :=
       ["balancer"; "https"; "target";
        ServicePort.Scheme (Service.Port s) +:+ "://" +:+ Service.Name s +:+ ":"
          +:+ Itoa (ServicePort.Port (Service.Port s))];
     container.Env := ∅;
     container.Volumes := [];
     container.Labels := list_to_map [
       ("convox.rack", Provider.Name p);
       ("convox.version", Provider.Version p);
       ("convox.app", app);
       ("convox.release", release);
       ("convox.type", "endpoint");
       ("convox.name", Service.Name s);
       ("convox.port", Itoa (ServicePort.Port (Service.Port s)))];
     container.Id := "" |}.

(** The [switch stage] of [serviceContainers]: cases are tried in the
    order of the source. *)
Definition stageCommand (s : Service.t) (stage : Z) : result string :=
  if decide (stage = StageDevelopment) then
    Ok (ServiceCommand.Development (Service.Command s))
  else if decide (stage = StageTest) then Err ErrBackgroundInTest
  else if decide (stage = StageProduction) then
    Ok (ServiceCommand.Production (Service.Command s))
  else Err (ErrUnknownStage stage).

(** The loop over [m.Resources] for one consumed resource name [sr]. *)
Fixpoint resourceEnv (app sr : string) (resources : list Resource.t)
    (e : gmap string string) : result (gmap string string) :=
  match resources with
  | [] => Ok e
  | r :: rest =>
      if decide (Resource.Name r = sr) then
        u ← resourceURL app (Resource.Type_ r) (Resource.Name r);
        resourceEnv app sr rest (<[strings_ToUpper sr +:+ "_URL" := u]> e)
      else resourceEnv app sr rest e
  end.

(** The loop over [s.Resources] ("add resources"). *)
Fixpoint addResources (app : string) (srs : list string) (resources : list Resource.t)
    (e : gmap string string) : result (gmap string string) :=
  match srs with
  | [] => Ok e
  | sr :: rest =>
      e' ← resourceEnv app sr resources e;
      addResources app rest resources e'
  end.

Definition serviceContainer (app release : string) (r : Release.t) (s : Service.t)
    (cmd : list string) (e : gmap string string) (i : Z) : container.t :=
  {| container.Name :=
       Provider.Name p +:+ "." +:+ app +:+ ".service." +:+ Service.Name s +:+ "." +:+ Itoa i;
     container.Hostname := "";
     container.Port := {| containerPort.Host := 0; containerPort.Container := 0 |};
     container.Memory := ServiceScale.Memory (Service.Scale s);
     container.Image :=
       Provider.Name p +:+ "/" +:+ app +:+ "/" +:+ Service.Name s +:+ ":" +:+ Release.Build r;
     container.Command := cmd;
     container.Env := e;
     container.Volumes := Service.Volumes s;
     container.Labels := list_to_map [
       ("convox.rack", Provider.Name p);
       ("convox.version", Provider.Version p);
       ("convox.app", app);
       ("convox.release", release);
       ("convox.type", "service");
       ("convox.name", Service.Name s);
       ("convox.service", Service.Name s);
       ("convox.index", Itoa i)];
     container.Id := "" |}.

(** The body of the loop of [serviceContainers] for one service: the
    containers it appends to [cs]. The replica loop runs [i] from 1 to
    [s.Scale.Count.Min]. *)
Definition serviceStep (sys : System.t) (m : Manifest.t) (r : Release.t)
    (app release : string) (stage : Z) (w : World) (s : Service.t)
    (cs : list container.t) : result (list container.t) :=
  let cs :=
    if decide (0 < ServicePort.Port (Service.Port s)) then
      cs ++ [endpointContainer sys app release s]
    else cs in
  command ← stageCommand s stage;
  let cmd :=
    let c := strings_TrimSpace command in
    if decide (c ≠ "") then ["sh"; "-c"; c] else [] in
  env ← ServiceEnvironment m (Service.Name s) w;
  let e := env in
  e ← addResources app (Service.Resources s) (Manifest.Resources m) e;
  Ok (cs ++ (serviceContainer app release r s cmd e
               <$> seqZ 1 (ServiceCount.Min (ServiceScale.Count (Service.Scale s))))).

Fixpoint serviceLoop (sys : System.t) (m : Manifest.t) (r : Release.t)
    (app release : string) (stage : Z) (w : World) (services : list Service.t)
    (cs : list container.t) : result (list container.t) :=
  match services with
  | [] => Ok cs
  | s :: rest =>
      cs' ← serviceStep sys m r app release stage w s cs;
      serviceLoop sys m r app release stage w rest cs'
  end.

(** [func (p *Provider) serviceContainers(services, app, release, stage)] *)
Definition serviceContainers (services : list Service.t) (app release : string)
    (stage : Z) (w : World) : result (list container.t) :=
  let cs := [] in
  if decide (stage = StageTest) then Ok cs
  else
    sys ← SystemGet w;
    '(m, r) ← ReleaseManifest app release w;
    serviceLoop sys m r app release stage w services cs.

(** Lines 28 to 49 of [converge]: the desired list, balancers first, then
    resources, then services. *)
Definition desired (app : string) (m : Manifest.t) (r : Release.t) (w : World)
    : result (list container.t) :=
  let cs := [] in
  c ← balancerContainers (Manifest.Balancers m) app (Release.Id r) (Release.Stage r) w;
  let cs := cs ++ c in
  c ← resourceContainers (Manifest.Resources m) app (Release.Id r);
  let cs := cs ++ c in
  c ← serviceContainers (Manifest.Services m) app (Release.Id r) (Release.Stage r) w;
  let cs := cs ++ c in
  Ok cs.
End Builder.

(** ** The convergence engine *)

(** The calls by which [converge] and [convergePrune] change the world, in
    the order they are made. *)
Inductive action : Type :=
  | ActConverge (c : container.t) (app release : string)
  | ActRegister (c : container.t)
  | ActLogWrite (key data : string)
  | ActStop (id : string).

(** The identifiers passed to [docker stop], in order. *)
Definition stops (tr : list action) : list string :=
  omap (λ a, match a with ActStop id => Some id | _ => None end) tr.

(** The keys and data passed to [p.storageLogWrite], in order. *)
Definition log_writes (tr : list action) : list (string * string) :=
  omap (λ a, match a with ActLogWrite k d => Some (k, d) | _ => None end) tr.

Definition newline : string := String (ascii_of_nat 10) "".

(** What [converge] does for the running containers it finds orphaned: for
    each, in order, a line in the release log and the stop. *)
Fixpoint orphan_actions (app : string) (release : string) (orphans : list string)
    : list action :=
  match orphans with
  | [] => []
  | rc :: rest =>
      ActLogWrite ("apps/" +:+ app +:+ "/releases/" +:+ release +:+ "/log")
                  ("stopping: " +:+ rc +:+ newline)
      :: ActStop rc :: orphan_actions app release rest
  end.

(** A computation on a world and the trace of calls made so far, that
    returns a value or an error. *)
Definition M (World A : Type) : Type :=
  World * list action → result A * (World * list action).

#[global] Instance M_ret {World} : MRet (M World) := λ A a st, (Ok a, st).
#[global] Instance M_bind {World} : MBind (M World) := λ A B k m st,
  match m st with
  | (Ok a, st') => k a st'
  | (Err e, st') => (Err e, st')
  end.

Section Engine.
Context {lib : GoLib} {stages : Stages} {World : Type} {host : Collaborators World}.
Variable p : Provider.t.

(** A call that reads the world and leaves it as it is. *)
Definition query {A} (f : World → result A) : M World A :=
  λ st, (f st.1, st).

Definition call_containerConverge (c : container.t) (app release : string)
    : M World string :=
  λ st, let '(r, w) := containerConverge c app release st.1 in
        (r, (w, st.2 ++ [ActConverge c app release])).

Definition call_containerRegister (c : container.t) : M World () :=
  λ st, let '(r, w) := containerRegister c st.1 in
        (r, (w, st.2 ++ [ActRegister c])).

Definition call_storageLogWrite (key data : string) : M World () :=
  λ st, (Ok (), (storageLogWrite key data st.1, st.2 ++ [ActLogWrite key data])).

Definition call_docker_stop (id : string) : M World () :=
  λ st, (Ok (), (docker_stop id st.1, st.2 ++ [ActStop id])).

(** Lines 53 to 66: [for i, c := range cs]. The loop variable [c] is the
    element as it was before [cs[i].Id] is assigned; what is registered is
    [cs[i]], with its identifier. The list returned is [cs] after the loop. *)
Fixpoint convergeEach (app release : string) (cs : list container.t)
    : M World (list container.t) :=
  match cs with
  | [] => mret []
  | c :: rest =>
      id ← call_containerConverge c app release;
      let ci := container.with_Id c id in
      (if decide (container.Hostname c ≠ "") then call_containerRegister ci
       else mret ());;
      rest' ← convergeEach app release rest;
      mret (ci :: rest')
  end.

(** The flag [found] of lines 86 to 101 for a running container [rc]. *)
Definition found (cs : list container.t) (ps : list string) (rc : string) : bool :=
  let found := false in
  let found :=
    if existsb (λ c, bool_decide (container.Id c = rc)) cs then true else found in
  let found :=
    if existsb (λ pc, bool_decide (rc = pc)) ps then true else found in
  found.

(** Lines 85 to 108: [for _, rc := range running]. *)
Fixpoint stopOrphans (app : string) (r : Release.t) (cs : list container.t)
    (ps running : list string) : M World () :=
  match running with
  | [] => mret ()
  | rc :: rest =>
      (if negb (found cs ps rc) then
         call_storageLogWrite ("apps/" +:+ app +:+ "/releases/" +:+ Release.Id r +:+ "/log")
                              ("stopping: " +:+ rc +:+ newline);;
         call_docker_stop rc
       else mret ());;
      stopOrphans app r cs ps rest
  end.

(** [func (p *Provider) converge(app string) error]. The lock makes the
    body run alone; the logger's lines are left out. *)
Definition converge (app : string) : M World () :=
  '(m, r) ← query (AppManifest app);
  cs ← query (desired p app m r);
  cs ← convergeEach app (Release.Id r) cs;
  running ← query (containersByLabels (list_to_map [
    ("convox.rack", Provider.Name p);
    ("convox.app", app)]));
  ps ← query (containersByLabels (list_to_map [
    ("convox.rack", Provider.Name p);
    ("convox.app", app);
    ("convox.type", "process")]));
  stopOrphans app r cs ps running;;
  mret ().

(** Lines 133 to 145 of [convergePrune]: the set [appc] of the containers
    of the listed applications. *)
Fixpoint appContainers (apps : list App.t) (appc : gmap string bool) (w : World)
    : result (gmap string bool) :=
  match apps with
  | [] => Ok appc
  | a :: rest =>
      ac ← containersByLabels (list_to_map [
        ("convox.rack", Provider.Name p);
        ("convox.app", App.Name a)]) w;
      appContainers rest (foldl (λ appc c, <[c:=true]> appc) appc ac) w
  end.

(** Lines 147 to 152: a missing key of [appc] reads as [false]. *)
Fixpoint pruneEach (appc : gmap string bool) (all : list string) : M World () :=
  match all with
  | [] => mret ()
  | c :: rest =>
      (if negb (default false (appc !! c)) then call_docker_stop c else mret ());;
      pruneEach appc rest
  end.

(** [func (p *Provider) convergePrune() error] *)
Definition convergePrune : M World () :=
  apps ← query AppList;
  all ← query (containersByLabels (list_to_map [("convox.rack", Provider.Name p)]));
  appc ← query (appContainers apps ∅);
  pruneEach appc all;;
  mret ().
End Engine.

(** ** A concrete library, and a simulated host, to run the code on *)

(** The library functions on ASCII strings, where they agree with Go's:
    letters a to z are raised, the six ASCII white-space bytes are trimmed,
    and [%q] escapes the quote, the backslash and the bytes that are not
    printable. *)
Module Ascii7.
Definition upper (c : ascii) : ascii :=
  let n := N_of_ascii c in
  if ((97 <=? n) && (n <=? 122))%N then ascii_of_N (n - 32) else c.

Fixpoint ToUpper (s : string) : string :=
  match s with
  | EmptyString => EmptyString
  | String c rest => String (upper c) (ToUpper rest)
  end.

Definition is_space (c : ascii) : bool :=
  let n := N_of_ascii c in
  (((9 <=? n) && (n <=? 13)) || (n =? 32))%N.

Fixpoint trim_left (s : string) : string :=
  match s with
  | EmptyString => EmptyString
  | String c rest => if is_space c then trim_left rest else s
  end.

Definition TrimSpace (s : string) : string :=
  String.rev (trim_left (String.rev (trim_left s))).

Definition escape (c : ascii) : string :=
  let n := N_of_ascii c in
  if (n =? 34)%N then String (ascii_of_N 92) (String c "")
  else if (n =? 92)%N then String c (String c "")
  else if ((32 <=? n) && (n <=? 126))%N then String c ""
  else if (n =? 7)%N then "\a"
  else if (n =? 8)%N then "\b"
  else if (n =? 12)%N then "\f"
  else if (n =? 10)%N then "\n"
  else if (n =? 13)%N then "\r"
  else if (n =? 9)%N then "\t"
  else if (n =? 11)%N then "\v"
  else "\x" +:+ String (hex_digit (n / 16)) (String (hex_digit (n mod 16)) "").

Fixpoint escape_all (s : string) : string :=
  match s with
  | EmptyString => EmptyString
  | String c rest => escape c +:+ escape_all rest
  end.

Definition Quote (s : string) : string :=
  String (ascii_of_N 34) (escape_all s) +:+ String (ascii_of_N 34) "".

Definition lib : GoLib :=
  {| strings_ToUpper := ToUpper;
     strings_TrimSpace := TrimSpace;
     strconv_Quote := Quote |}.
End Ascii7.

(** Three distinct stage constants. *)
Definition example_stages : Stages :=
  {| StageDevelopment := 0; StageTest := 1; StageProduction := 2 |}.

(** A host on which every application has the same manifest and release:
    the store answers every query, a container is identified by
    ["id-"] and its name, and the label query returns the running
    containers that carry every label asked for. *)
Module Sim.
Record world : Type := mk {
  manifest : Manifest.t;
  release : Release.t;
  apps : list App.t;
  environ : list string;
  running : list (string * gmap string string);
}.

Definition has_labels (want have : gmap string string) : bool :=
  forallb (λ kv, bool_decide (have !! kv.1 = Some kv.2)) (map_to_list want).

Definition by_labels (want : gmap string string) (w : world) : list string :=
  fst <$> filter (λ c, has_labels want c.2 = true) (running w).

Definition with_running (w : world) (cs : list (string * gmap string string)) : world :=
  mk (manifest w) (release w) (apps w) (environ w) cs.

Definition start (c : container.t) (w : world) : result string * world :=
  let id := "id-" +:+ container.Name c in
  (Ok id,
   with_running w (filter (λ rc, rc.1 ≠ id) (running w) ++ [(id, container.Labels c)])).

Definition stop (id : string) (w : world) : world :=
  with_running w (filter (λ rc, rc.1 ≠ id) (running w)).

Definition host : Collaborators world :=
  {| SystemGet := λ w, Ok (System.mk "convox/praxis");
     AppManifest := λ app w, Ok (manifest w, release w);
     ReleaseManifest := λ app rel w, Ok (manifest w, release w);
     ServiceEnvironment := λ m name w,
       s ← Find (Manifest.Services m) name; Env s (environ w);
     AppList := λ w, Ok (apps w);
     containersByLabels := λ want w, Ok (by_labels want w);
     containerConverge := λ c app rel w, start c w;
     containerRegister := λ c w, (Ok (), w);
     storageLogWrite := λ key data w, w;
     docker_stop := stop |}.
End Sim.

(** A service with nothing declared but its name. *)
Definition plain_service (name : string) : Service.t :=
  {| Service.Name := name;
     Service.Build := ServiceBuild.mk [] "";
     Service.Command := ServiceCommand.mk "" "" "";
     Service.Environment := [];
     Service.Image := "";
     Service.Port := ServicePort.mk 0 "";
     Service.Resources := [];
     Service.Scale := ServiceScale.mk (ServiceCount.mk 0) 0;
     Service.Test := "";
     Service.Volumes := [] |}.

Definition with_Environment (s : Service.t) (entries : list string) : Service.t :=
  Service.mk (Service.Name s) (Service.Build s) (Service.Command s) entries
    (Service.Image s) (Service.Port s) (Service.Resources s) (Service.Scale s)
    (Service.Test s) (Service.Volumes s).

Definition with_Build (s : Service.t) (path : string) (args : list string)
    (image : string) : Service.t :=
  Service.mk (Service.Name s) (ServiceBuild.mk args path) (Service.Command s)
    (Service.Environment s) image (Service.Port s) (Service.Resources s)
    (Service.Scale s) (Service.Test s) (Service.Volumes s).

(** An application on the rack "dev": a balancer with two endpoints, a
    redis resource "db", and a service "web" that consumes it, listens on
    port 3000 and runs two replicas. *)
Module Example.
Definition provider : Provider.t := Provider.mk "dev" "test".

Definition web_balancer : Balancer.t :=
  Balancer.mk "web"
    [Endpoint.mk "80" "http" "https://example.org" "";
     Endpoint.mk "443" "https" "" "http://web:3000"].

Definition db : Resource.t := Resource.mk "db" "redis".

Definition web : Service.t :=
  {| Service.Name := "web";
     Service.Build := ServiceBuild.mk [] ".";
     Service.Command := ServiceCommand.mk "make dev" "make test" "bin/web";
     Service.Environment := ["PORT=3000"];
     Service.Image := "";
     Service.Port := ServicePort.mk 3000 "http";
     Service.Resources := ["db"];
     Service.Scale := ServiceScale.mk (ServiceCount.mk 2) 256;
     Service.Test := "";
     Service.Volumes := [] |}.

Definition manifest : Manifest.t := Manifest.mk [web_balancer] [db] [web].

(** A release in stage [StageProduction] of [example_stages]. *)
Definition release : Release.t := Release.mk "R1" "B1" 2.

Definition labels (app type : string) : gmap string string :=
  list_to_map [("convox.rack", "dev"); ("convox.app", app); ("convox.type", type)].

(** Running before convergence: a replica of an older release of
    "myapp", a one-off process of "myapp", a service of "other", and a
    container of the rack that belongs to an application no longer
    listed. *)
Definition world : Sim.world :=
  {| Sim.manifest := manifest;
     Sim.release := release;
     Sim.apps := [App.mk "myapp"; App.mk "other"];
     Sim.environ := [];
     Sim.running :=
       [("old-web-3", labels "myapp" "service");
        ("shell-1", labels "myapp" "process");
        ("other-web-1", labels "other" "service");
        ("gone-web-1", labels "gone" "service")] |}.
End Example.

(** A service declaring the required keys K and J, on a host whose ambient
    environment defines K only. *)
Definition service_K_J : Service.t := with_Environment (plain_service "web") ["K"; "J"].

(** A service with a required key and an optional one, and an ambient
    environment that defines both. *)
Definition service_K_opt : Service.t :=
  with_Environment (plain_service "web") ["K"; "PORT=3000"].

(** The value of a result known to be [Ok]. *)
Definition value {A} (d : A) (r : result A) : A :=
  match r with
  | Ok a => a
  | Err _ => d
  end.

Module Run.
Definition desired : list container.t :=
  value [] (desired (lib:=Ascii7.lib) (stages:=example_stages) (host:=Sim.host)
              Example.provider "myapp" Example.manifest Example.release Example.world).

Definition converged : result (list container.t) * (Sim.world * list action) :=
  convergeEach (host:=Sim.host) "myapp" "R1" desired (Example.world, []).

Definition labels_app : gmap string string :=
  list_to_map [("convox.rack", "dev"); ("convox.app", "myapp")].

Definition labels_process : gmap string string :=
  list_to_map [("convox.rack", "dev"); ("convox.app", "myapp");
               ("convox.type", "process")].
End Run.

(** An endpoint that sets both a redirect and a target. *)
Definition endpoint_both : Endpoint.t :=
  Endpoint.mk "443" "https" "https://example.org" "http://web:3000".

(** An endpoint that sets neither. *)
Definition endpoint_neither : Endpoint.t := Endpoint.mk "80" "http" "" "".

(** Two services that differ in their build arguments only. *)
Definition service_args_one : Service.t := with_Build (plain_service "web") "." ["a b"] "img".
Definition service_args_two : Service.t := with_Build (plain_service "web") "." ["a"; "b"] "img".

(** ** Vocabulary for the properties of the builder *)

(** Whether the byte ['.'] occurs in [s]. *)
Fixpoint has_dot (s : string) : bool :=
  match s with
  | EmptyString => false
  | String c rest => Ascii.eqb c "."%char || has_dot rest
  end.

(** The sixteen digits [%x] prints. *)
Definition is_hex_digit (c : ascii) : bool :=
  let n := N_of_ascii c in
  (((48 <=? n) && (n <=? 57)) || ((97 <=? n) && (n <=? 102)))%N.

(** The types the resource catalog knows. *)
Definition known_resource_type (kind : string) : Prop :=
  kind = "postgres" ∨ kind = "redis".

Section BuilderVocabulary.
Context {lib : GoLib} {stages : Stages} {World : Type} {host : Collaborators World}.
Variable p : Provider.t.

(** The argument list [cmd] of [serviceContainers] for a command line. *)
Definition service_command (command : string) : list string :=
  let c := strings_TrimSpace command in
  if decide (c ≠ "") then ["sh"; "-c"; c] else [].

(** The environment [e] of [serviceContainers] for a service: its declared
    environment, then the URLs of the resources it consumes. *)
Definition service_env (m : Manifest.t) (app : string) (w : World) (s : Service.t)
    : result (gmap string string) :=
  env ← ServiceEnvironment m (Service.Name s) w;
  addResources app (Service.Resources s) (Manifest.Resources m) env.

(** What one turn of the loop of [serviceContainers] appends for a service
    whose command line is [command] and whose environment is [e]. *)
Definition service_containers (sys : System.t) (r : Release.t) (app release : string)
    (s : Service.t) (command : string) (e : gmap string string) : list container.t :=
  (if decide (0 < ServicePort.Port (Service.Port s)) then
     [endpointContainer p sys app release s]
   else [])
  ++ (serviceContainer p app release r s (service_command command) e
        <$> seqZ 1 (ServiceCount.Min (ServiceScale.Count (Service.Scale s)))).

(** The resource container of a resource whose type the catalog knows. *)
Definition resource_container (app release : string) (r : Resource.t) : container.t :=
  resourceContainer p app release r
    (value 0 (resourcePort (Resource.Type_ r)))
    (value [] (resourceVolumes app (Resource.Type_ r) (Resource.Name r))).
End BuilderVocabulary.

(** ** Vocabulary for the properties of the engine *)


(** The four component types the builder labels a container with. *)
Definition builder_types : list string := ["balancer"; "resource"; "endpoint"; "service"].

(** What every desired container is labelled with. *)
Definition labelled (p : Provider.t) (app release : string) (c : container.t) : Prop :=
  container.Labels c !! "convox.rack" = Some (Provider.Name p) ∧
  container.Labels c !! "convox.version" = Some (Provider.Version p) ∧
  container.Labels c !! "convox.app" = Some app ∧
  container.Labels c !! "convox.release" = Some release ∧
  ∃ type, type ∈ builder_types ∧ container.Labels c !! "convox.type" = Some type.


(** The example host with another manifest or release. *)
Definition with_manifest (w : Sim.world) (m : Manifest.t) (r : Release.t) : Sim.world :=
  Sim.mk m r (Sim.apps w) (Sim.environ w) (Sim.running w).

(** What a container's name is made from besides the rack and the
    application: the kind of component, its name, and for a service replica
    its index. *)
Inductive component : Type :=
  | OfBalancer (name : string)
  | OfResource (name : string)
  | OfEndpoint (name : string)
  | OfReplica (name : string) (index : Z).

(** The name the builder gives the container of a component. *)
Definition component_name (p : Provider.t) (app : string) (k : component) : string :=
  match k with
  | OfBalancer n => Provider.Name p +:+ "." +:+ app +:+ ".balancer." +:+ n
  | OfResource n => Provider.Name p +:+ "." +:+ app +:+ ".resource." +:+ n
  | OfEndpoint n => Provider.Name p +:+ "." +:+ app +:+ ".endpoint." +:+ n
  | OfReplica n i => Provider.Name p +:+ "." +:+ app +:+ ".service." +:+ n +:+ "." +:+ Itoa i
  end.

(** The components of a manifest that the builder makes containers for
    outside stage test, in the order of the desired list. *)
Definition components (m : Manifest.t) : list component :=
  (b ← Manifest.Balancers m; (λ _, OfBalancer (Balancer.Name b)) <$> Balancer.Endpoints b)
  ++ ((λ r, OfResource (Resource.Name r)) <$> Manifest.Resources m)
  ++ (s ← Manifest.Services m;
      (if decide (0 < ServicePort.Port (Service.Port s)) then [OfEndpoint (Service.Name s)]
       else [])
      ++ (OfReplica (Service.Name s)
            <$> seqZ 1 (ServiceCount.Min (ServiceScale.Count (Service.Scale s))))).

(** The name of the manifest entry a component comes from. *)
Definition component_of (k : component) : string :=
  match k with
  | OfBalancer n | OfResource n | OfEndpoint n | OfReplica n _ => n
  end.

(** 0 for a balancer, 1 for a resource, 2 for what comes from a service. *)
Definition component_section (k : component) : nat :=
  match k with
  | OfBalancer _ => 0
  | OfResource _ => 1
  | OfEndpoint _ | OfReplica _ _ => 2
  end.

(** Looks a label up in the map a builder writes. *)
Ltac label_lookup :=
  unfold labelled, builder_types; simpl;
  repeat (rewrite lookup_insert_eq || rewrite lookup_insert_ne by discriminate).

(** ** Package manifest: running the tests *)

(** [Service.run], which [Manifest.Test] calls and which is not among the
    files at hand: running a command of a service in a namespace changes the
    world (the writers of the options are part of it) and may fail. *)
Class Runner (World : Type) : Type := {
  Service_run : Service.t → string → string → World → result () * World;
}.

Section ManifestTest.
Context {World : Type} {runner : Runner World}.

(** The loop of [Manifest.Test], on the world and the list of the commands
    run so far, each with the name of its service. *)
Fixpoint Test_loop (ns : string) (services : list Service.t)
    (st : World * list (string * string))
    : result () * (World * list (string * string)) :=
  match services with
  | [] => (Ok (), st)
  | s :: rest =>
      if decide (ServiceCommand.Test (Service.Command s) ≠ "") then
        let '(r, w) := Service_run s ns (ServiceCommand.Test (Service.Command s)) st.1 in
        let st' :=
          (w, st.2 ++ [(Service.Name s, ServiceCommand.Test (Service.Command s))]) in
        match r with
        | Ok _ => Test_loop ns rest st'
        | Err e => (Err e, st')
        end
      else Test_loop ns rest st
  end.

(** [func (m *Manifest) Test(ns string, opts TestOptions) error] *)
Definition Manifest_Test (m : Manifest.t) (ns : string)
    (st : World * list (string * string))
    : result () * (World * list (string * string)) :=
  Test_loop ns (Manifest.Services m) st.
End ManifestTest.

(** The test commands of a manifest, each with the name of its service, in
    the order of the manifest: the services without one are left out. *)
Definition test_commands (m : Manifest.t) : list (string * string) :=
  (λ s, (Service.Name s, ServiceCommand.Test (Service.Command s)))
    <$> filter (λ s, ServiceCommand.Test (Service.Command s) ≠ "") (Manifest.Services m).

(** A runner on a world that is the list of the commands that fail. *)
Definition list_runner : Runner (list string) :=
  {| Service_run := λ s ns command failing,
       if decide (command ∈ failing) then (Err (ErrExternal command), failing)
       else (Ok (), failing) |}.

(** ** The service list of the cloud provider *)

Module TypesApp.
Record t : Type := mk { Name : string; Release : string }.
End TypesApp.

Module TypesRelease.
Record t : Type := mk { Build : string }.
End TypesRelease.

Module TypesBuild.
Record t : Type := mk { Manifest : string }.
End TypesBuild.

Module TypesService.
Record t : Type := mk { Name : string; Endpoint : string }.
End TypesService.

(** What [ServiceList] calls and does not define: the store ([p.AppGet],
    [p.ReleaseGet], [p.BuildGet]), the stack output [p.appOutput], the
    helper [upperName], and [manifest.Load], which rests on the YAML
    library. *)
Class CloudCollaborators (World : Type) : Type := {
  AppGet : string → World → result TypesApp.t;
  ReleaseGet : string → string → World → result TypesRelease.t;
  BuildGet : string → string → World → result TypesBuild.t;
  Load : string → result Manifest.t;
  appOutput : string → string → World → result string;
  upperName : string → string;
}.

Section ServiceList.
Context {World : Type} {cloud : CloudCollaborators World}.

(** The loop of [ServiceList] over [m.Services]. *)
Fixpoint ServiceList_loop (app : string) (w : World) (services : list Service.t)
    (ss : list TypesService.t) : result (list TypesService.t) :=
  match services with
  | [] => Ok ss
  | s :: rest =>
      endpoint ← appOutput app ("Endpoint" +:+ upperName (Service.Name s)) w;
      ServiceList_loop app w rest
        (ss ++ [{| TypesService.Name := Service.Name s;
                   TypesService.Endpoint := endpoint |}])
  end.

(** [func (p *Provider) ServiceList(app string) (types.Services, error)] *)
Definition ServiceList (app : string) (w : World) : result (list TypesService.t) :=
  a ← AppGet app w;
  if decide (TypesApp.Release a = "") then Ok []
  else
    r ← ReleaseGet app (TypesApp.Release a) w;
    b ← BuildGet app (TypesRelease.Build r) w;
    m ← Load (TypesBuild.Manifest b);
    let ss := [] in
    ServiceList_loop app w (Manifest.Services m) ss.
End ServiceList.

(** A cloud on which every application has the release "R1" and the
    manifest of the example, and a service has an endpoint unless its name
    is in the world, the list of the services without one. *)
Definition example_cloud : CloudCollaborators (list string) :=
  {| AppGet := λ app w, Ok (TypesApp.mk app "R1");
     ReleaseGet := λ app release w, Ok (TypesRelease.mk "B1");
     BuildGet := λ app build w, Ok (TypesBuild.mk "services: ...");
     Load := λ text, Ok Example.manifest;
     appOutput := λ app name w,
       if decide (name ∈ w) then Err (ErrExternal name)
       else Ok (name +:+ ".example.org");
     upperName := Ascii7.ToUpper |}.

(** * Theorems *)

(** ** The library functions on known values *)

Example SHA1_empty : fmt_x (SHA1.Sum "") = "da39a3ee5e6b4b0d3255bfef95601890afd80709".
Proof. by vm_compute. Qed.

Example SHA1_abc : fmt_x (SHA1.Sum "abc") = "a9993e364706816aba3e25717850c26c9cd0d89d".
Proof. by vm_compute. Qed.

(** A message of 56 bytes, padded to two blocks. *)
Example SHA1_two_blocks :
  fmt_x (SHA1.Sum "abcdbcdecdefdefgefghfghighijhijkijkljklmklmnlmnomnopnopq")
  = "84983e441c3bd26ebaae4aa1f95129e5e54670f1".
Proof. by vm_compute. Qed.

Example Itoa_values : Itoa 0 = "0" ∧ Itoa 3000 = "3000" ∧ Itoa (-12) = "-12".
Proof. by vm_compute. Qed.

Example SplitN_values :
  SplitN_equals_2 "KEY" = ["KEY"] ∧ SplitN_equals_2 "KEY=a=b" = ["KEY"; "a=b"] ∧
  SplitN_equals_2 "" = [""] ∧ SplitN_equals_2 "=" = [""; ""].
Proof. by vm_compute. Qed.

Example fmt_v_values :
  fmt_v_strings [] = "[]" ∧ fmt_v_strings ["a"; "b"] = "[a b]" ∧
  fmt_v_strings ["a b"] = "[a b]".
Proof. by vm_compute. Qed.

(** An equation between closed terms, checked by evaluating both sides. *)
Ltac by_evaluation :=
  lazymatch goal with
  | |- @eq ?T ?l ?r => vm_cast_no_check (@eq_refl T r)
  end.

(** ** Environment resolution *)

Lemma cut_equals_None (s : string) : cut_equals s = None ↔ has_equals s = false.
Proof.
  induction s as [|c rest IH]; simpl; [done|].
  destruct (Ascii.eqb c "="); simpl; [split; discriminate|].
  destruct (cut_equals rest) as [[k v]|].
  - split; [discriminate|]. intros E. apply IH in E. discriminate.
  - split; [|done]. intros _. by apply IH.
Qed.

Lemma cut_equals_app (k d : string) :
  has_equals k = false → cut_equals (k +:+ "=" +:+ d) = Some (k, d).
Proof.
  induction k as [|c rest IH]; simpl; [done|].
  destruct (Ascii.eqb c "="); simpl; [discriminate|].
  intros E. by rewrite IH.
Qed.

Lemma SplitN_required (e : string) : has_equals e = false → SplitN_equals_2 e = [e].
Proof. intros E. unfold SplitN_equals_2. apply cut_equals_None in E. by rewrite E. Qed.

Lemma SplitN_optional (k d : string) :
  has_equals k = false → SplitN_equals_2 (k +:+ "=" +:+ d) = [k; d].
Proof. intros E. unfold SplitN_equals_2. by rewrite cut_equals_app. Qed.

Lemma SplitN_length (s : string) :
  length (SplitN_equals_2 s) = 1%nat ∨ length (SplitN_equals_2 s) = 2%nat.
Proof. unfold SplitN_equals_2. destruct (cut_equals s) as [[k v]|]; auto. Qed.

Lemma SplitN_cases (s : string) :
  (has_equals s = false ∧ SplitN_equals_2 s = [s]) ∨
  (∃ k d, SplitN_equals_2 s = [k; d]).
Proof.
  unfold SplitN_equals_2. destruct (cut_equals s) as [[k v]|] eqn:E.
  - right. eauto.
  - left. split; [by apply cut_equals_None|done].
Qed.

Lemma parseEnv_app (env1 env2 : list string) :
  parseEnv (env1 ++ env2) =
  foldl (λ parsed e,
           match SplitN_equals_2 e with
           | [k; v] => <[k:=v]> parsed
           | _ => parsed
           end) (parseEnv env1) env2.
Proof. unfold parseEnv. by rewrite foldl_app. Qed.

Lemma parseEnv_bare (env1 env2 : list string) (e : string) :
  has_equals e = false → parseEnv (env1 ++ e :: env2) = parseEnv (env1 ++ env2).
Proof.
  intros E. rewrite !parseEnv_app. simpl. by rewrite (SplitN_required e E).
Qed.

Lemma cut_equals_Some (e k v : string) :
  cut_equals e = Some (k, v) ↔ has_equals k = false ∧ e = k +:+ "=" +:+ v.
Proof.
  split; [|intros [Hk ->]; by apply cut_equals_app].
  revert k. induction e as [|c rest IH]; intros k; simpl; [done|].
  destruct (Ascii.eqb_spec c "="%char) as [->|Hc].
  - by intros [= <- <-].
  - destruct (cut_equals rest) as [[k' v']|]; [|done].
    intros [= <- <-]. destruct (IH k' eq_refl) as [Hk' ->].
    split; [|done]. simpl. apply Ascii.eqb_neq in Hc. by rewrite Hc.
Qed.

Lemma has_equals_entry (k v : string) : has_equals (k +:+ "=" +:+ v) = true.
Proof.
  induction k as [|c rest IH]; simpl; [done|]. rewrite IH. apply orb_true_r.
Qed.

(** No entry of [env] reads [k=...]: what it is for the key [k] to be absent
    from the ambient environment. *)
Lemma parseEnv_lookup_None (env : list string) (k : string) :
  has_equals k = false →
  parseEnv env !! k = None ↔ ∀ v, k +:+ "=" +:+ v ∉ env.
Proof.
  intros Hk. unfold parseEnv.
  assert (∀ acc : gmap string string,
    foldl (λ parsed e, match SplitN_equals_2 e with
                       | [k; v] => <[k:=v]> parsed
                       | _ => parsed
                       end) acc env !! k = None
    ↔ acc !! k = None ∧ ∀ v, k +:+ "=" +:+ v ∉ env) as Hgen.
  { induction env as [|e rest IH]; intros acc; simpl.
    - split; [intros ?; split; [done|]; intros v; apply not_elem_of_nil|by intros [? _]].
    - rewrite IH. unfold SplitN_equals_2.
      destruct (cut_equals e) as [[k' v']|] eqn:He.
      + apply cut_equals_Some in He as [Hk' ->].
        destruct (decide (k' = k)) as [->|Hne].
        * rewrite lookup_insert_eq. split; [by intros [? _]|].
          intros [_ Hno]. exfalso. apply (Hno v'). by left.
        * rewrite lookup_insert_ne by done. split.
          -- intros [Hacc Hrest]. split; [done|]. intros v [Heq|Hin]%elem_of_cons.
             ++ apply (f_equal cut_equals) in Heq.
                rewrite !cut_equals_app in Heq by done. congruence.
             ++ by apply (Hrest v).
          -- intros [Hacc Hall]. split; [done|]. intros v Hin.
             apply (Hall v). by right.
      + apply cut_equals_None in He. split.
        * intros [Hacc Hrest]. split; [done|]. intros v [Heq|Hin]%elem_of_cons.
          -- rewrite <- Heq, has_equals_entry in He. done.
          -- by apply (Hrest v).
        * intros [Hacc Hall]. split; [done|]. intros v Hin.
          apply (Hall v). by right. }
  rewrite Hgen, lookup_empty. split; [by intros [_ ?]|done].
Qed.

Lemma Env_loop_never_invalid penv entries full :
  Env_loop penv entries full ≠ Err ErrInvalidEnvironment.
Proof.
  revert full. induction entries as [|e rest IH]; intros full; simpl; [done|].
  destruct (SplitN_cases e) as [[_ ->]|(k & d & ->)].
  - destruct (penv !! e); [apply IH|done].
  - destruct (penv !! k); apply IH.
Qed.

Lemma Env_loop_missing penv entries full K :
  K ∈ entries → has_equals K = false → penv !! K = None →
  ∃ K', Env_loop penv entries full = Err (ErrRequiredEnv K').
Proof.
  revert full. induction entries as [|e rest IH]; intros full Hin HK Hno.
  - by apply elem_of_nil in Hin.
  - simpl. apply elem_of_cons in Hin as [<-|Hin].
    + rewrite (SplitN_required K HK), Hno. eauto.
    + destruct (SplitN_cases e) as [[_ ->]|(k & d & ->)].
      * destruct (penv !! e); [by apply IH|eauto].
      * destruct (penv !! k); by apply IH.
Qed.

Lemma Env_loop_present penv entries full :
  (∀ K, K ∈ entries → has_equals K = false → is_Some (penv !! K)) →
  Env_loop penv entries full = Ok (resolved penv full entries).
Proof.
  revert full. induction entries as [|e rest IH]; intros full Hall; simpl; [done|].
  assert (∀ K, K ∈ rest → has_equals K = false → is_Some (penv !! K)) as Hrest.
  { intros K HK. apply Hall. by right. }
  unfold resolved, entry_key, entry_value. simpl.
  destruct (SplitN_cases e) as [[He Hs]|(k & d & Hs)]; rewrite Hs.
  - destruct (Hall e) as [v Hv]; [by left|done|]. rewrite Hv. simpl. by apply IH.
  - destruct (penv !! k) as [v|]; simpl; by apply IH.
Qed.

Lemma entry_value_ambient penv (e : string) v :
  penv !! entry_key e = Some v → entry_value penv e = v.
Proof.
  unfold entry_key, entry_value.
  destruct (SplitN_cases e) as [[He Hs]|(k & d & Hs)]; rewrite Hs; by intros ->.
Qed.

Lemma resolved_lookup_ambient penv entries full k v :
  penv !! k = Some v →
  full !! k = Some v ∨ (∃ e, e ∈ entries ∧ entry_key e = k) →
  resolved penv full entries !! k = Some v.
Proof.
  intros Hv. unfold resolved. revert full.
  induction entries as [|e rest IH]; intros full Hor; simpl.
  - destruct Hor as [?|(e & He & _)]; [done|]. by apply elem_of_nil in He.
  - apply IH. destruct (decide (entry_key e = k)) as [Heq|Hne].
    + left. rewrite Heq, lookup_insert_eq. f_equal. apply entry_value_ambient. by rewrite Heq.
    + rewrite lookup_insert_ne by done.
      destruct Hor as [?|(e' & He' & Hk)]; [by left|].
      apply elem_of_cons in He' as [->|He']; [done|]. right. eauto.
Qed.

Lemma resolved_lookup_last penv (pre post : list string) (e : string) full :
  (∀ e', e' ∈ post → entry_key e' ≠ entry_key e) →
  resolved penv full (pre ++ e :: post) !! entry_key e = Some (entry_value penv e).
Proof.
  intros Hpost. unfold resolved. rewrite foldl_app. simpl.
  generalize (foldl (λ m e0, <[entry_key e0 := entry_value penv e0]> m) full pre).
  intros m0.
  assert (∀ m : gmap string string, m !! entry_key e = Some (entry_value penv e) →
    foldl (λ m e0, <[entry_key e0:=entry_value penv e0]> m) m post !! entry_key e
      = Some (entry_value penv e)) as Hkeep.
  { induction post as [|e' post IH]; intros m Hm; simpl; [done|].
    apply IH.
    - intros e'' He''. apply Hpost. by right.
    - rewrite lookup_insert_ne; [done|]. apply Hpost. by left. }
  apply Hkeep. by rewrite lookup_insert_eq.
Qed.

Lemma Env_bare_entry (s : Service.t) (env1 env2 : list string) (e : string) :
  has_equals e = false → Env s (env1 ++ e :: env2) = Env s (env1 ++ env2).
Proof. intros E. unfold Env. by rewrite parseEnv_bare. Qed.

Lemma Env_loop_Ok penv entries full0 full :
  Env_loop penv entries full0 = Ok full → full = resolved penv full0 entries.
Proof.
  revert full0. induction entries as [|e rest IH]; intros full0; simpl.
  - by intros [= <-].
  - unfold resolved, entry_key, entry_value. simpl.
    destruct (SplitN_cases e) as [[He Hs]|(k & d & Hs)]; rewrite Hs.
    + destruct (penv !! e) as [v|]; [|done]. simpl. apply IH.
    + destruct (penv !! k) as [v|]; simpl; apply IH.
Qed.

Lemma Env_loop_error penv entries full err :
  Env_loop penv entries full = Err err →
  ∃ K, err = ErrRequiredEnv K ∧ K ∈ entries ∧ has_equals K = false ∧ penv !! K = None.
Proof.
  revert full. induction entries as [|e rest IH]; intros full; simpl; [done|].
  destruct (SplitN_cases e) as [[He Hs]|(k & d & Hs)]; rewrite Hs.
  - destruct (penv !! e) as [v|] eqn:Hv.
    + intros (K & ? & ? & ? & ?)%IH. exists K. split_and!; [done|by right|done..].
    + intros [= <-]. exists e. split_and!; [done|by left|done..].
  - destruct (penv !! k) as [v|]; intros (K & ? & ? & ? & ?)%IH;
      exists K; (split_and!; [done|by right|done..]).
Qed.

Lemma entry_key_optional (k d : string) :
  has_equals k = false → entry_key (k +:+ "=" +:+ d) = k.
Proof. intros E. unfold entry_key. by rewrite SplitN_optional. Qed.

Lemma entry_value_optional penv (k d : string) :
  has_equals k = false → entry_value penv (k +:+ "=" +:+ d) = default d (penv !! k).
Proof. intros E. unfold entry_value. by rewrite SplitN_optional. Qed.

Lemma entry_key_required (K : string) : has_equals K = false → entry_key K = K.
Proof. intros E. unfold entry_key. by rewrite SplitN_required. Qed.

(** C3, as stated, fails: the required key K is present in the ambient
    environment, and resolution does not succeed, because the other required
    key J is missing. *)
Lemma Env_present_key_not_enough :
  "K" ∈ Service.Environment service_K_J ∧
  has_equals "K" = false ∧
  parseEnv ["K=v"] !! "K" = Some "v" ∧
  Env service_K_J ["K=v"] = Err (ErrRequiredEnv "J").
Proof. split_and!; [apply elem_of_cons; by left|by vm_compute..]. Qed.

(** C3 (amended): a key is absent from the ambient environment, as
    [parseEnv] reads it, when no ambient entry reads [K=...]. A required key
    (an entry without '=') that is absent makes [Env] fail with the
    required-env error of a required key that is absent; when every
    required key is present,
    [Env] succeeds, every declared key the ambient environment defines
    resolves to its ambient value, and an optional entry KEY=default after
    which KEY is not declared again resolves to the ambient value of KEY
    when there is one and to its default otherwise. *)
Theorem Env_required_and_optional (s : Service.t) (env : list string) :
  (∀ K, has_equals K = false →
        parseEnv env !! K = None ↔ ∀ v, K +:+ "=" +:+ v ∉ env) ∧
  (∀ K, K ∈ Service.Environment s → has_equals K = false →
        parseEnv env !! K = None →
        ∃ K', Env s env = Err (ErrRequiredEnv K') ∧
              K' ∈ Service.Environment s ∧ has_equals K' = false ∧
              parseEnv env !! K' = None) ∧
  ((∀ K, K ∈ Service.Environment s → has_equals K = false →
         is_Some (parseEnv env !! K)) →
   ∃ full, Env s env = Ok full ∧
     (∀ e v, e ∈ Service.Environment s → parseEnv env !! entry_key e = Some v →
             full !! entry_key e = Some v) ∧
     (∀ pre post k d,
        Service.Environment s = pre ++ (k +:+ "=" +:+ d) :: post →
        has_equals k = false →
        (∀ e', e' ∈ post → entry_key e' ≠ k) →
        full !! k = Some (default d (parseEnv env !! k)))).
Proof.
  split_and!.
  - intros K HK. by apply parseEnv_lookup_None.
  - intros K Hin HK Hno.
    destruct (Env_loop_missing (parseEnv env) (Service.Environment s) ∅ K)
      as [K' HK']; [done..|].
    exists K'. split; [done|].
    apply Env_loop_error in HK' as (K'' & [= ->] & ? & ? & ?). done.
  - intros Hall. exists (resolved (parseEnv env) ∅ (Service.Environment s)).
    split_and!.
    + by apply Env_loop_present.
    + intros e v Hin Hv. apply resolved_lookup_ambient; [done|]. right. eauto.
    + intros pre post k d -> Hk Hpost.
      rewrite <- (entry_key_optional k d Hk) at 1.
      rewrite resolved_lookup_last.
      * by rewrite entry_value_optional.
      * by rewrite entry_key_optional.
Qed.

Lemma Env_required_and_optional_witness :
  ∃ full, Env service_K_opt ["K=v"; "PORT=80"] = Ok full ∧
          full !! "K" = Some "v" ∧ full !! "PORT" = Some "80".
Proof.
  destruct (Env_required_and_optional service_K_opt ["K=v"; "PORT=80"])
    as (_ & _ & Hok).
  destruct Hok as (full & Hfull & Hamb & Hopt).
  - intros K [->|[->|[]%elem_of_nil]%elem_of_cons]%elem_of_cons HK.
    + exists "v". by vm_compute.
    + by vm_compute in HK.
  - exists full. split_and!; [done| |].
    + apply (Hamb "K"); [by left|by vm_compute].
    + apply (Hopt ["K"] [] "PORT" "3000"); [done..|]. by intros ? ?%elem_of_nil.
Defined.

(** C10: an ambient entry [e] without '=' is ignored: [parseEnv] and [Env]
    give the same result with and without it; so when [e] is itself a
    required key of the service that no other ambient entry defines, [Env]
    still fails with a required-env error, and an optional entry whose key
    no ambient entry defines keeps its default. [Env] never returns the
    invalid-environment error. *)
Theorem Env_ignores_bare_ambient_entry (s : Service.t) (env1 env2 : list string)
    (e : string) :
  has_equals e = false →
  parseEnv (env1 ++ e :: env2) = parseEnv (env1 ++ env2) ∧
  Env s (env1 ++ e :: env2) = Env s (env1 ++ env2) ∧
  (e ∈ Service.Environment s → parseEnv (env1 ++ env2) !! e = None →
   ∃ K', Env s (env1 ++ e :: env2) = Err (ErrRequiredEnv K')) ∧
  (∀ pre post k d full,
     Service.Environment s = pre ++ (k +:+ "=" +:+ d) :: post →
     has_equals k = false →
     (∀ e', e' ∈ post → entry_key e' ≠ k) →
     parseEnv (env1 ++ env2) !! k = None →
     Env s (env1 ++ e :: env2) = Ok full →
     full !! k = Some d) ∧
  (∀ (s' : Service.t) (env' : list string), Env s' env' ≠ Err ErrInvalidEnvironment).
Proof.
  intros He. split_and!.
  - by apply parseEnv_bare.
  - by apply Env_bare_entry.
  - intros Hin Hno. rewrite Env_bare_entry by done. by apply Env_loop_missing with e.
  - intros pre post k d full Henv Hk Hpost Hno.
    rewrite Env_bare_entry by done. unfold Env. rewrite Henv.
    intros ->%Env_loop_Ok.
    rewrite <- (entry_key_optional k d Hk) at 1.
    rewrite resolved_lookup_last.
    + by rewrite entry_value_optional, Hno.
    + by rewrite entry_key_optional.
  - intros s' env'. apply Env_loop_never_invalid.
Qed.

Lemma Env_ignores_bare_ambient_entry_witness :
  Env service_K_opt ["PORT"; "K"] = Env service_K_opt ["PORT"] ∧
  ∃ K', Env service_K_opt ["PORT"; "K"] = Err (ErrRequiredEnv K').
Proof.
  destruct (Env_ignores_bare_ambient_entry service_K_opt ["PORT"] [] "K" eq_refl)
    as (_ & Hsame & Hfail & _).
  split; [exact Hsame|]. apply Hfail; [apply elem_of_cons; by left|by vm_compute].
Defined.

(** ** Synthesis of the desired containers *)

Lemma result_bind_Ok {A B} (r : result A) (k : A → result B) (b : B) :
  r ≫= k = Ok b → ∃ a, r = Ok a ∧ k a = Ok b.
Proof. destruct r as [a|e]; [|done]. intros Hk. by exists a. Qed.

Lemma result_bind_Err {A B} (r : result A) (k : A → result B) (e : error) :
  r ≫= k = Err e → r = Err e ∨ ∃ a, r = Ok a ∧ k a = Err e.
Proof. intros Hk. destruct r as [a|e']; [right; by exists a|left; simpl in Hk; congruence]. Qed.

Section BuilderFacts.
Context {lib : GoLib} {stages : Stages} {World : Type} {host : Collaborators World}.
Variable p : Provider.t.

Lemma balancerCommand_valid b e :
  Endpoint.Redirect e ≠ "" ∨ Endpoint.Target e ≠ "" →
  balancerCommand b e = Ok (endpoint_command e).
Proof.
  unfold balancerCommand, endpoint_command. intros Hor.
  case_decide as Hr; [done|]. case_decide as Ht; [done|]. by destruct Hor.
Qed.

Lemma balancerCommand_invalid b e :
  Endpoint.Redirect e = "" → Endpoint.Target e = "" →
  balancerCommand b e = Err (ErrInvalidBalancerEndpoint (Balancer.Name b) (Endpoint.Port e)).
Proof. unfold balancerCommand. intros -> ->. by repeat case_decide. Qed.

Lemma balancerEndpoints_valid sys app release b es cs :
  (∀ e, e ∈ es → Endpoint.Redirect e ≠ "" ∨ Endpoint.Target e ≠ "") →
  balancerEndpoints p sys app release b es cs =
  Ok (cs ++ ((λ e, balancerContainer p sys app release b e (endpoint_command e)) <$> es)).
Proof.
  revert cs. induction es as [|e rest IH]; intros cs Hall; simpl.
  - by rewrite app_nil_r.
  - rewrite balancerCommand_valid by (apply Hall; by left). simpl.
    rewrite IH by (intros e' He'; apply Hall; by right).
    by rewrite <- app_assoc.
Qed.

Lemma balancerEndpoints_invalid sys app release b es cs e :
  e ∈ es → Endpoint.Redirect e = "" → Endpoint.Target e = "" →
  is_Err (balancerEndpoints p sys app release b es cs).
Proof.
  revert cs. induction es as [|e' rest IH]; intros cs Hin Hr Ht.
  - by apply elem_of_nil in Hin.
  - simpl. apply elem_of_cons in Hin as [<-|Hin].
    + rewrite balancerCommand_invalid by done. by eexists.
    + destruct (balancerCommand b e') as [cmd|err]; simpl; [by apply IH|by eexists].
Qed.

Lemma balancerLoop_valid sys app release balancers cs :
  (∀ b e, b ∈ balancers → e ∈ Balancer.Endpoints b →
          Endpoint.Redirect e ≠ "" ∨ Endpoint.Target e ≠ "") →
  balancerLoop p sys app release balancers cs =
  Ok (cs ++ (b ← balancers;
             (λ e, balancerContainer p sys app release b e (endpoint_command e))
               <$> Balancer.Endpoints b)).
Proof.
  revert cs. induction balancers as [|b rest IH]; intros cs Hall; simpl.
  - by rewrite app_nil_r.
  - rewrite balancerEndpoints_valid by (intros e He; apply (Hall b); [by left|done]).
    simpl. rewrite IH by (intros b' e Hb' He; apply (Hall b'); [by right|done]).
    by rewrite <- app_assoc.
Qed.

Lemma balancerLoop_invalid sys app release balancers cs b e :
  b ∈ balancers → e ∈ Balancer.Endpoints b →
  Endpoint.Redirect e = "" → Endpoint.Target e = "" →
  is_Err (balancerLoop p sys app release balancers cs).
Proof.
  revert cs. induction balancers as [|b' rest IH]; intros cs Hb He Hr Ht.
  - by apply elem_of_nil in Hb.
  - simpl. apply elem_of_cons in Hb as [<-|Hb].
    + destruct (balancerEndpoints_invalid sys app release b (Balancer.Endpoints b) cs e)
        as [err ->]; [done..|]. by eexists.
    + destruct (balancerEndpoints p sys app release b' (Balancer.Endpoints b') cs)
        as [cs'|err]; simpl; [by apply IH|by eexists].
Qed.

Lemma stageCommand_not_test s stage :
  stage ≠ StageTest → stageCommand s stage ≠ Err ErrBackgroundInTest.
Proof. unfold stageCommand. intros Hne. by repeat case_decide. Qed.

Lemma resourceURL_error app kind name err :
  resourceURL app kind name = Err err → err = ErrUnknownResourceType kind.
Proof. unfold resourceURL. repeat case_decide; congruence. Qed.

Lemma resourceEnv_error app sr resources e err :
  resourceEnv app sr resources e = Err err → ∃ kind, err = ErrUnknownResourceType kind.
Proof.
  revert e. induction resources as [|r rest IH]; intros e; simpl; [done|].
  case_decide; [|apply IH].
  intros [Hu|(u & _ & Hrest)]%result_bind_Err.
  - apply resourceURL_error in Hu. eauto.
  - by apply IH in Hrest.
Qed.

Lemma addResources_error app srs resources e err :
  addResources app srs resources e = Err err → ∃ kind, err = ErrUnknownResourceType kind.
Proof.
  revert e. induction srs as [|sr rest IH]; intros e; simpl; [done|].
  intros [Hr|(e' & _ & Hrest)]%result_bind_Err.
  - by apply resourceEnv_error in Hr.
  - by apply IH in Hrest.
Qed.

Lemma serviceStep_not_background sys m r app release stage w s cs :
  stage ≠ StageTest →
  ServiceEnvironment m (Service.Name s) w ≠ Err ErrBackgroundInTest →
  serviceStep p sys m r app release stage w s cs ≠ Err ErrBackgroundInTest.
Proof.
  intros Hstage Henv. unfold serviceStep.
  intros [Hc|(command & _ & Hrest)]%result_bind_Err.
  { by apply stageCommand_not_test in Hc. }
  apply result_bind_Err in Hrest as [He|(env & _ & Hrest)]; [done|].
  apply result_bind_Err in Hrest as [Hr|(e & _ & Hrest)]; [|done].
  by apply addResources_error in Hr as [kind ?].
Qed.

Lemma serviceLoop_not_background sys m r app release stage w services cs :
  stage ≠ StageTest →
  (∀ name, ServiceEnvironment m name w ≠ Err ErrBackgroundInTest) →
  serviceLoop p sys m r app release stage w services cs ≠ Err ErrBackgroundInTest.
Proof.
  intros Hstage Henv. revert cs.
  induction services as [|s rest IH]; intros cs; simpl; [done|].
  intros [Hs|(cs' & _ & Hrest)]%result_bind_Err.
  - by apply serviceStep_not_background in Hs.
  - by apply IH in Hrest.
Qed.

(** C2: in stage test, balancer synthesis and service synthesis return
    no container (and no error), whatever the manifest declares. *)
Theorem test_stage_synthesizes_nothing (balancers : list Balancer.t)
    (services : list Service.t) (app release : string) (w : World) :
  balancerContainers p balancers app release StageTest w = Ok [] ∧
  serviceContainers p services app release StageTest w = Ok [].
Proof.
  unfold balancerContainers, serviceContainers. by rewrite !decide_True.
Qed.

(** C6 (amended): outside stage test, balancer synthesis fails whenever
    some endpoint sets neither a redirect nor a target; an endpoint that
    sets both is accepted, and its redirect decides the command; when the
    system is known and every endpoint sets at least one of the two,
    synthesis returns one container per endpoint. *)
Theorem balancer_endpoint_validation (balancers : list Balancer.t)
    (app release : string) (stage : Z) (w : World) :
  stage ≠ StageTest →
  (∀ b e, b ∈ balancers → e ∈ Balancer.Endpoints b →
          Endpoint.Redirect e = "" → Endpoint.Target e = "" →
          is_Err (balancerContainers p balancers app release stage w)) ∧
  (∀ b e, Endpoint.Redirect e ≠ "" →
          balancerCommand b e =
          Ok ["balancer"; Endpoint.Protocol e; "redirect"; Endpoint.Redirect e]) ∧
  (∀ sys, SystemGet w = Ok sys →
     (∀ b e, b ∈ balancers → e ∈ Balancer.Endpoints b →
             Endpoint.Redirect e ≠ "" ∨ Endpoint.Target e ≠ "") →
     balancerContainers p balancers app release stage w =
     Ok (b ← balancers;
         (λ e, balancerContainer p sys app release b e (endpoint_command e))
           <$> Balancer.Endpoints b)).
Proof.
  intros Hstage. unfold balancerContainers. rewrite decide_False by done.
  split_and!.
  - intros b e Hb He Hr Ht. destruct (SystemGet w) as [sys|err]; simpl.
    + by apply balancerLoop_invalid with b e.
    + by eexists.
  - intros b e Hr. unfold balancerCommand. by rewrite decide_True.
  - intros sys -> Hall. simpl. by rewrite balancerLoop_valid.
Qed.

(** C7 (amended): in stage test, service synthesis returns the empty list
    and no error, whatever services the manifest has; and in no stage does
    it fail with the background-service-in-test error, unless a
    collaborator hands that very error back. *)
Theorem test_stage_skips_services_silently (services : list Service.t)
    (app release : string) (w : World) :
  serviceContainers p services app release StageTest w = Ok [] ∧
  (∀ stage,
     SystemGet w ≠ Err ErrBackgroundInTest →
     ReleaseManifest app release w ≠ Err ErrBackgroundInTest →
     (∀ m name, ServiceEnvironment m name w ≠ Err ErrBackgroundInTest) →
     serviceContainers p services app release stage w ≠ Err ErrBackgroundInTest).
Proof.
  unfold serviceContainers. split; [by rewrite decide_True|].
  intros stage Hsys Hrel Henv. case_decide; [done|].
  intros [?|(sys & _ & Hrest)]%result_bind_Err; [done|].
  apply result_bind_Err in Hrest as [?|([m r] & _ & Hrest)]; [done|].
  by apply serviceLoop_not_background in Hrest.
Qed.
End BuilderFacts.

(** ** The convergence engine *)

Lemma stops_app (tr1 tr2 : list action) : stops (tr1 ++ tr2) = stops tr1 ++ stops tr2.
Proof. apply omap_app. Qed.

Lemma log_writes_app (tr1 tr2 : list action) :
  log_writes (tr1 ++ tr2) = log_writes tr1 ++ log_writes tr2.
Proof. apply omap_app. Qed.

Lemma M_bind_run {World A B} (m : M World A) (k : A → M World B) st :
  (m ≫= k) st =
  match m st with
  | (Ok a, st') => k a st'
  | (Err e, st') => (Err e, st')
  end.
Proof. reflexivity. Qed.

Lemma query_run {World} {host : Collaborators World} {A} (f : World → result A) st :
  query f st = (f st.1, st).
Proof. reflexivity. Qed.

(** One step of a run: a query whose answer [H] gives. *)
Ltac run_query H :=
  rewrite M_bind_run, query_run; cbn [fst]; rewrite H; cbv beta iota.

(** One step of a run: a query, by cases on its answer. *)
Tactic Notation "case_query" ident(a) :=
  rewrite M_bind_run;
  lazymatch goal with
  | |- context [query ?f (?w, ?tr)] =>
      rewrite (query_run f (w, tr)); cbn [fst];
      destruct (f w) as [a|?]; cbv beta iota; [|by intros [= _ _ <-]]
  end.

Section EngineFacts.
Context {lib : GoLib} {stages : Stages} {World : Type} {host : Collaborators World}.
Variable p : Provider.t.

Lemma found_false cs ps rc :
  found cs ps rc = false ↔ (rc ∉ container.Id <$> cs) ∧ (rc ∉ ps).
Proof.
  unfold found.
  destruct (existsb (λ pc, bool_decide (rc = pc)) ps) eqn:Hps.
  - split; [done|]. intros [_ Hno]. exfalso. apply Hno.
    apply existsb_exists in Hps as (pc & Hin & Heq).
    apply bool_decide_eq_true in Heq as <-. by apply list_elem_of_In.
  - assert (rc ∉ ps) as Hno.
    { intros Hin. apply list_elem_of_In in Hin.
      assert (existsb (λ pc, bool_decide (rc = pc)) ps = true) as Hyes; [|congruence].
      apply existsb_exists. exists rc. split; [done|]. by apply bool_decide_eq_true. }
    destruct (existsb (λ c, bool_decide (container.Id c = rc)) cs) eqn:Hcs.
    + split; [done|]. intros [Hnc _]. exfalso. apply Hnc.
      apply existsb_exists in Hcs as (c & Hin & Heq).
      apply bool_decide_eq_true in Heq as <-.
      apply list_elem_of_fmap. exists c. split; [done|]. by apply list_elem_of_In.
    + split; [|done]. intros _. split; [|done].
      intros (c & -> & Hin)%list_elem_of_fmap. apply list_elem_of_In in Hin.
      assert (existsb (λ c', bool_decide (container.Id c' = container.Id c)) cs = true)
        as Hyes; [|congruence].
      apply existsb_exists. exists c. split; [done|]. by apply bool_decide_eq_true.
Qed.

Lemma stops_orphan_actions app release orphans :
  stops (orphan_actions app release orphans) = orphans.
Proof.
  induction orphans as [|rc rest IH]; [done|]. simpl. by rewrite IH.
Qed.

Lemma log_writes_orphan_actions app release orphans :
  log_writes (orphan_actions app release orphans) =
  (λ rc, ("apps/" +:+ app +:+ "/releases/" +:+ release +:+ "/log",
          "stopping: " +:+ rc +:+ newline)) <$> orphans.
Proof.
  induction orphans as [|rc rest IH]; [done|]. simpl. by rewrite IH.
Qed.

Lemma stopOrphans_run app r cs ps running st :
  (stopOrphans app r cs ps running st).1 = Ok () ∧
  (stopOrphans app r cs ps running st).2.2 =
    st.2 ++ orphan_actions app (Release.Id r)
              (filter (λ rc, (rc ∉ container.Id <$> cs) ∧ (rc ∉ ps)) running).
Proof.
  revert st. induction running as [|rc rest IH]; intros [w tr].
  - simpl. by rewrite app_nil_r.
  - simpl. rewrite M_bind_run.
    destruct (found cs ps rc) eqn:Hf; simpl.
    + rewrite filter_cons_False; [apply IH|].
      intros Hno. apply found_false in Hno. congruence.
    + rewrite filter_cons_True by (by apply found_false).
      match goal with |- context [stopOrphans _ _ _ _ _ ?st1] =>
        destruct (IH st1) as [-> ->] end.
      simpl. by rewrite <- !app_assoc.
Qed.

Lemma convergeEach_trace app release cs st :
  ∃ tr', (convergeEach app release cs st).2.2 = st.2 ++ tr' ∧
         stops tr' = [] ∧ log_writes tr' = [].
Proof.
  revert st. induction cs as [|c rest IH]; intros [w tr]; simpl.
  { exists []. by rewrite app_nil_r. }
  rewrite M_bind_run. unfold call_containerConverge. simpl.
  destruct (containerConverge c app release w) as [[id|err] w1]; simpl;
    [|by eexists].
  rewrite M_bind_run.
  case_decide.
  - unfold call_containerRegister. simpl.
    destruct (containerRegister (container.with_Id c id) w1) as [[[]|err] w2]; simpl;
      [|eexists; split; [by rewrite <- app_assoc|done]].
    rewrite M_bind_run.
    match goal with |- context [convergeEach _ _ _ ?st1] =>
      destruct (IH st1) as (tr' & Htr & Hs & Hl);
      destruct (convergeEach app release rest st1) as [[rest'|err] st2] end;
      simpl in *; rewrite Htr;
      (eexists; split; [by rewrite <- !app_assoc|]); simpl; by rewrite Hs, Hl.
  - simpl. rewrite M_bind_run.
    match goal with |- context [convergeEach _ _ _ ?st1] =>
      destruct (IH st1) as (tr' & Htr & Hs & Hl);
      destruct (convergeEach app release rest st1) as [[rest'|err] st2] end;
      simpl in *; rewrite Htr;
      (eexists; split; [by rewrite <- !app_assoc|]); simpl; by rewrite Hs, Hl.
Qed.

Lemma convergeEach_ids app release cs st D st' :
  convergeEach app release cs st = (Ok D, st') →
  Forall2 (λ c d, d = container.with_Id c (container.Id d)) cs D.
Proof.
  revert st D st'. induction cs as [|c rest IH]; intros [w tr] D st'; simpl.
  { intros [= <- _]. constructor. }
  rewrite M_bind_run. unfold call_containerConverge. simpl.
  destruct (containerConverge c app release w) as [[id|err] w1]; simpl; [|done].
  rewrite M_bind_run.
  assert (∀ st1, (convergeEach app release rest ≫= λ rest',
                    mret (container.with_Id c id :: rest')) st1 = (Ok D, st') →
          Forall2 (λ c d, d = container.with_Id c (container.Id d)) (c :: rest) D)
    as Hrest.
  { intros st1. rewrite M_bind_run.
    destruct (convergeEach app release rest st1) as [[rest'|err] st2] eqn:Hrun;
      [|done].
    intros [= <- _]. constructor; [done|]. by apply IH in Hrun. }
  case_decide.
  - unfold call_containerRegister. simpl.
    destruct (containerRegister (container.with_Id c id) w1) as [[[]|err] w2]; simpl;
      [apply Hrest|done].
  - apply Hrest.
Qed.

(** C1: when the store, the synthesis, the convergence of every spec and
    the two label queries succeed, [converge] succeeds, the converged list
    is the desired list with an identifier recorded in each spec, and what
    it stops is exactly the running containers, in the order of the query,
    whose identifier is neither recorded in that list nor among the process
    containers; each stop is recorded by one line in the release log; no
    process container is stopped. When [converge] fails it has stopped
    nothing. *)
Theorem converge_stops_exactly_the_orphans (app : string) (w : World) :
  (∀ m r D0 D w1 tr1 running ps,
     AppManifest app w = Ok (m, r) →
     desired p app m r w = Ok D0 →
     convergeEach app (Release.Id r) D0 (w, []) = (Ok D, (w1, tr1)) →
     containersByLabels
       (list_to_map [("convox.rack", Provider.Name p); ("convox.app", app)]) w1
       = Ok running →
     containersByLabels
       (list_to_map [("convox.rack", Provider.Name p); ("convox.app", app);
                     ("convox.type", "process")]) w1
       = Ok ps →
     ∃ w2 tr2,
       converge p app (w, []) = (Ok (), (w2, tr2)) ∧
       Forall2 (λ c d, d = container.with_Id c (container.Id d)) D0 D ∧
       stops tr2 = filter (λ rc, (rc ∉ container.Id <$> D) ∧ (rc ∉ ps)) running ∧
       log_writes tr2 =
         (λ rc, ("apps/" +:+ app +:+ "/releases/" +:+ Release.Id r +:+ "/log",
                 "stopping: " +:+ rc +:+ newline)) <$> stops tr2 ∧
       (∀ pc, pc ∈ ps → pc ∉ stops tr2)) ∧
  (∀ err w' tr, converge p app (w, []) = (Err err, (w', tr)) → stops tr = []).
Proof.
  split.
  - intros m r D0 D w1 tr1 running ps Hm HD0 HD Hrun Hps.
    destruct (convergeEach_trace app (Release.Id r) D0 (w, [])) as (tr' & Htr & Hs & Hl).
    rewrite HD in Htr. simpl in Htr. subst tr1.
    destruct (stopOrphans_run app r D ps running (w1, tr')) as [Hres Htr2].
    destruct (stopOrphans app r D ps running (w1, tr')) as [res [w2 tr2]] eqn:Hstop.
    simpl in Hres, Htr2. subst res tr2.
    exists w2, (tr' ++ orphan_actions app (Release.Id r)
                  (filter (λ rc, (rc ∉ container.Id <$> D) ∧ (rc ∉ ps)) running)).
    assert (stops (tr' ++ orphan_actions app (Release.Id r)
              (filter (λ rc, (rc ∉ container.Id <$> D) ∧ (rc ∉ ps)) running))
            = filter (λ rc, (rc ∉ container.Id <$> D) ∧ (rc ∉ ps)) running) as Hstops.
    { by rewrite stops_app, Hs, stops_orphan_actions. }
    split_and!.
    + unfold converge. run_query Hm. run_query HD0.
      rewrite M_bind_run, HD. cbv beta iota.
      run_query Hrun. run_query Hps.
      by rewrite M_bind_run, Hstop.
    + by apply convergeEach_ids in HD.
    + done.
    + rewrite Hstops, log_writes_app, Hl, log_writes_orphan_actions. done.
    + intros pc Hpc. rewrite Hstops. intros [[_ Hno] _]%list_elem_of_filter. done.
  - intros err w' tr. unfold converge.
    case_query mr. destruct mr as [m r]. case_query D0.
    rewrite M_bind_run.
    destruct (convergeEach_trace app (Release.Id r) D0 (w, [])) as (tr' & Htr & Hs & Hl).
    destruct (convergeEach app (Release.Id r) D0 (w, [])) as [[D|e0] [w1 tr1]];
      simpl in Htr; subst tr1; [|by intros [= _ _ <-]].
    case_query running. case_query ps.
    rewrite M_bind_run.
    destruct (stopOrphans_run app r D ps running (w1, tr')) as [Hres _].
    destruct (stopOrphans app r D ps running (w1, tr')) as [res st2].
    simpl in Hres. subst res. done.
Qed.

Lemma appc_insert_all (ac : list string) (appc : gmap string bool) (c : string) :
  default false (foldl (λ appc c, <[c:=true]> appc) appc ac !! c) = true ↔
  default false (appc !! c) = true ∨ c ∈ ac.
Proof.
  revert appc. induction ac as [|c' rest IH]; intros appc; simpl.
  - split; [by left|]. intros [?|?%elem_of_nil]; done.
  - rewrite IH. destruct (decide (c' = c)) as [->|Hne].
    + rewrite lookup_insert_eq. simpl. split; [|by left].
      intros _. right. by left.
    + rewrite lookup_insert_ne by done. rewrite elem_of_cons.
      split; [intros [?|?]; auto|intros [?|[?|?]]; [auto|congruence|auto]].
Qed.

Lemma appContainers_run apps (appc0 : gmap string bool) w (ac : App.t → list string) :
  (∀ a, a ∈ apps →
        containersByLabels
          (list_to_map [("convox.rack", Provider.Name p); ("convox.app", App.Name a)]) w
        = Ok (ac a)) →
  ∃ appc, appContainers p apps appc0 w = Ok appc ∧
          ∀ c, default false (appc !! c) = true ↔
               default false (appc0 !! c) = true ∨ c ∈ (a ← apps; ac a).
Proof.
  revert appc0. induction apps as [|a rest IH]; intros appc0 Hq.
  - exists appc0. split; [done|]. intros c. split; [by left|].
    intros [?|?%elem_of_nil]; done.
  - cbn [appContainers]. rewrite (Hq a) by (by left). cbn [mbind result_bind].
    destruct (IH (foldl (λ appc c, <[c:=true]> appc) appc0 (ac a))) as (appc & -> & Hc).
    { intros a' Ha'. apply Hq. by right. }
    exists appc. split; [done|]. intros c.
    rewrite Hc, appc_insert_all, bind_cons, elem_of_app. tauto.
Qed.

Lemma pruneEach_run (appc : gmap string bool) all st :
  (pruneEach appc all st).1 = Ok () ∧
  (pruneEach appc all st).2.2 =
    st.2 ++ (ActStop <$> filter (λ c, default false (appc !! c) = false) all).
Proof.
  revert st. induction all as [|c rest IH]; intros [w tr].
  - simpl. by rewrite app_nil_r.
  - simpl. rewrite M_bind_run.
    destruct (default false (appc !! c)) eqn:Hc; simpl.
    + rewrite filter_cons_False by congruence. apply IH.
    + rewrite filter_cons_True by done.
      match goal with |- context [pruneEach _ _ ?st1] =>
        destruct (IH st1) as [-> ->] end.
      simpl. by rewrite <- app_assoc.
Qed.

Lemma stops_fmap_ActStop (ids : list string) : stops (ActStop <$> ids) = ids.
Proof. induction ids as [|c rest IH]; [done|]. unfold stops in *. simpl. by f_equal. Qed.

(** C9: when the application list and the label queries succeed,
    [convergePrune] succeeds and all it does is stop, in the order of the
    query, the containers carrying the rack label that are in none of the
    listed applications' sets of running containers; so no container of a
    listed application is stopped. When [convergePrune] fails it has done
    nothing. *)
Theorem convergePrune_stops_exactly_the_unowned (w : World) :
  (∀ apps all (ac : App.t → list string),
     AppList w = Ok apps →
     containersByLabels (list_to_map [("convox.rack", Provider.Name p)]) w = Ok all →
     (∀ a, a ∈ apps →
           containersByLabels
             (list_to_map [("convox.rack", Provider.Name p);
                           ("convox.app", App.Name a)]) w
           = Ok (ac a)) →
     ∃ w' tr,
       convergePrune p (w, []) = (Ok (), (w', tr)) ∧
       tr = ActStop <$> filter (λ c, c ∉ (a ← apps; ac a)) all ∧
       stops tr = filter (λ c, c ∉ (a ← apps; ac a)) all ∧
       (∀ a c, a ∈ apps → c ∈ ac a → c ∉ stops tr)) ∧
  (∀ err w' tr, convergePrune p (w, []) = (Err err, (w', tr)) → tr = []).
Proof.
  split.
  - intros apps all ac Happs Hall Hac.
    destruct (appContainers_run apps ∅ w ac Hac) as (appc & Happc & Hc).
    destruct (pruneEach_run appc all (w, [])) as [Hres Htr].
    destruct (pruneEach appc all (w, [])) as [res [w' tr]] eqn:Hprune.
    simpl in Hres, Htr. subst res tr.
    assert (filter (λ c, default false (appc !! c) = false) all
            = filter (λ c, c ∉ (a ← apps; ac a)) all) as Hfilter.
    { apply list_filter_iff. intros c.
      rewrite <- not_true_iff_false, Hc, lookup_empty. simpl.
      split; [intros Hno Hin; apply Hno; by right|intros Hno [?|?]; done]. }
    rewrite Hfilter in Hprune.
    exists w', (ActStop <$> filter (λ c, c ∉ (a ← apps; ac a)) all).
    split_and!; [|done|apply stops_fmap_ActStop|].
    + unfold convergePrune. run_query Happs. run_query Hall. run_query Happc.
      by rewrite M_bind_run, Hprune.
    + intros a c Ha Hin. rewrite stops_fmap_ActStop.
      intros [Hno _]%list_elem_of_filter. apply Hno.
      apply list_elem_of_bind. eauto.
  - intros err w' tr. unfold convergePrune.
    case_query apps. case_query all. case_query appc.
    rewrite M_bind_run.
    destruct (pruneEach_run appc all (w, [])) as [Hres _].
    destruct (pruneEach appc all (w, [])) as [res st2].
    simpl in Hres. subst res. done.
Qed.
End EngineFacts.

(** ** The code run on the example host *)

Lemma converge_stops_exactly_the_orphans_witness :
  ∃ w2 tr2,
    converge (lib:=Ascii7.lib) (stages:=example_stages) (host:=Sim.host)
      Example.provider "myapp" (Example.world, []) = (Ok (), (w2, tr2)) ∧
    stops tr2 = ["old-web-3"].
Proof.
  destruct (converge_stops_exactly_the_orphans (lib:=Ascii7.lib)
              (stages:=example_stages) (host:=Sim.host)
              Example.provider "myapp" Example.world) as [Hok _].
  destruct (Hok Example.manifest Example.release Run.desired
              (value [] Run.converged.1) Run.converged.2.1 Run.converged.2.2
              (Sim.by_labels Run.labels_app Run.converged.2.1)
              (Sim.by_labels Run.labels_process Run.converged.2.1))
    as (w2 & tr2 & Hrun & _ & Hstops & _).
  - reflexivity.
  - by_evaluation.
  - by_evaluation.
  - reflexivity.
  - reflexivity.
  - exists w2, tr2. split; [exact Hrun|]. rewrite Hstops. by_evaluation.
Defined.

Lemma convergePrune_stops_exactly_the_unowned_witness :
  ∃ w' tr,
    convergePrune (host:=Sim.host) Example.provider (Example.world, [])
      = (Ok (), (w', tr)) ∧
    stops tr = ["gone-web-1"].
Proof.
  destruct (convergePrune_stops_exactly_the_unowned (host:=Sim.host)
              Example.provider Example.world) as [Hok _].
  destruct (Hok (Sim.apps Example.world)
              (Sim.by_labels (list_to_map [("convox.rack", "dev")]) Example.world)
              (λ a, Sim.by_labels
                      (list_to_map [("convox.rack", "dev"); ("convox.app", App.Name a)])
                      Example.world))
    as (w' & tr & Hrun & _ & Hstops & _).
  - reflexivity.
  - reflexivity.
  - intros a _. reflexivity.
  - exists w', tr. split; [exact Hrun|]. rewrite Hstops. by_evaluation.
Defined.

(** C6, as stated, fails: an endpoint with both a redirect and a target is
    not an error; synthesis returns its container, which redirects. *)
Lemma balancer_endpoint_both_accepted :
  Endpoint.Redirect endpoint_both ≠ "" ∧
  Endpoint.Target endpoint_both ≠ "" ∧
  balancerContainers (stages:=example_stages) (host:=Sim.host) Example.provider
    [Balancer.mk "web" [endpoint_both]] "myapp" "R1" 2 Example.world
  = Ok [balancerContainer Example.provider (System.mk "convox/praxis") "myapp" "R1"
          (Balancer.mk "web" [endpoint_both]) endpoint_both
          ["balancer"; "https"; "redirect"; "https://example.org"]].
Proof. split_and!; [done|done|by_evaluation]. Qed.

Lemma balancer_endpoint_validation_witness :
  is_Err (balancerContainers (stages:=example_stages) (host:=Sim.host) Example.provider
            [Balancer.mk "web" [endpoint_both; endpoint_neither]] "myapp" "R1" 2
            Example.world).
Proof.
  destruct (balancer_endpoint_validation (stages:=example_stages) (host:=Sim.host)
              Example.provider [Balancer.mk "web" [endpoint_both; endpoint_neither]]
              "myapp" "R1" 2 Example.world) as [Hneither _].
  - discriminate.
  - apply (Hneither (Balancer.mk "web" [endpoint_both; endpoint_neither])
             endpoint_neither);
      [apply elem_of_cons; by left
      |apply elem_of_cons; right; apply elem_of_cons; by left
      |reflexivity..].
Defined.

(** C7, as stated, fails: with one service in the manifest and the stage
    set to test, service synthesis reports no error; it returns the empty
    list. *)
Lemma test_stage_service_not_an_error :
  serviceContainers (lib:=Ascii7.lib) (stages:=example_stages) (host:=Sim.host)
    Example.provider [Example.web] "myapp" "R1" (@StageTest example_stages)
    Example.world
  = Ok [].
Proof. by_evaluation. Qed.

Lemma Find_error ss name err :
  Find ss name = Err err → err = ErrServiceNotFound name.
Proof.
  induction ss as [|s rest IH]; simpl; [by intros [= <-]|].
  by destruct (String.eqb (Service.Name s) name).
Qed.

Lemma Sim_ServiceEnvironment_error m name w :
  @ServiceEnvironment _ Sim.host m name w ≠ Err ErrBackgroundInTest.
Proof.
  simpl. intros [Hf|(s & _ & He)]%result_bind_Err.
  - by apply Find_error in Hf.
  - by apply Env_loop_error in He as (K & ? & _).
Qed.

Lemma test_stage_skips_services_silently_witness :
  serviceContainers (lib:=Ascii7.lib) (stages:=example_stages) (host:=Sim.host)
    Example.provider [Example.web] "myapp" "R1" 2 Example.world
  ≠ Err ErrBackgroundInTest.
Proof.
  destruct (test_stage_skips_services_silently (lib:=Ascii7.lib)
              (stages:=example_stages) (host:=Sim.host)
              Example.provider [Example.web] "myapp" "R1" Example.world) as [_ Hnever].
  apply Hnever; [discriminate|discriminate|].
  intros m name. apply Sim_ServiceEnvironment_error.
Defined.

(** C4: the URL of a redis resource has the resource's name and the
    application in its host, and "convox" where the rack would be:
    [resourceURL] is not given the rack name. A service that consumes the
    resource gets the URL under the upper-cased name followed by "_URL". On
    the rack "dev" the resource "db" of "myapp" is registered under a host
    name that ends in "dev", and the URL given to the replicas of "web" ends
    in "convox" (the endpoint container of "web" has no environment). *)
Theorem resourceURL_hard_codes_the_rack :
  (∀ app name,
     resourceURL app "redis" name
     = Ok ("redis://" +:+ name +:+ ".resource." +:+ app +:+ ".convox:6379/0")) ∧
  (∀ (lib : GoLib) app name (e : gmap string string),
     addResources app [name] [Resource.mk name "redis"] e
     = Ok (<[strings_ToUpper name +:+ "_URL" :=
              "redis://" +:+ name +:+ ".resource." +:+ app +:+ ".convox:6379/0"]> e)) ∧
  container.Hostname <$> value [] (resourceContainers Example.provider [Example.db]
                                     "myapp" "R1")
  = ["db.resource.myapp.dev"] ∧
  (λ c, container.Env c !! "DB_URL")
    <$> value [] (serviceContainers (lib:=Ascii7.lib) (stages:=example_stages)
                    (host:=Sim.host) Example.provider [Example.web] "myapp" "R1" 2
                    Example.world)
  = [None;
     Some "redis://db.resource.myapp.convox:6379/0";
     Some "redis://db.resource.myapp.convox:6379/0"].
Proof.
  split_and!; [done| |by_evaluation..].
  intros lib app name e. simpl. by rewrite decide_True.
Qed.

Lemma replica_name_inj (p : Provider.t) app release r s cmd e :
  Inj (=) (=) (λ i, container.Name (serviceContainer p app release r s cmd e i)).
Proof.
  intros i j Heq. simpl in Heq. unfold Itoa in Heq.
  repeat apply String.app_inj in Heq. by apply pretty_Z_inj in Heq.
Qed.

(** C5: the containers of two endpoints of one balancer have the same
    name, whatever the endpoints are, while the replicas of one service have
    pairwise distinct names; on the example, the desired list has the name
    "dev.myapp.balancer.web" twice. *)
Theorem balancer_endpoints_share_a_name :
  (∀ (p : Provider.t) sys app release b e1 e2 command1 command2,
     container.Name (balancerContainer p sys app release b e1 command1)
     = container.Name (balancerContainer p sys app release b e2 command2)) ∧
  (∀ (p : Provider.t) app release r s cmd e n,
     NoDup (container.Name <$> (serviceContainer p app release r s cmd e <$> seqZ 1 n))) ∧
  container.Name
    <$> value [] (desired (lib:=Ascii7.lib) (stages:=example_stages) (host:=Sim.host)
                    Example.provider "myapp" Example.manifest Example.release
                    Example.world)
  = ["dev.myapp.balancer.web"; "dev.myapp.balancer.web"; "dev.myapp.resource.db";
     "dev.myapp.endpoint.web"; "dev.myapp.service.web.1"; "dev.myapp.service.web.2"].
Proof.
  split_and!; [done| |by_evaluation].
  intros p app release r s cmd e n. rewrite <- list_fmap_compose.
  apply NoDup_fmap_2_strong; [|apply NoDup_seqZ].
  intros i j _ _. apply replica_name_inj.
Qed.

(** ** The build hash *)

(** C8, as stated, fails: two services that differ in their build
    arguments have the same hash, whatever [%q] does; with the ASCII library
    both hash the string [build[path=".", args=[a b]] image="img"]. *)
Lemma BuildHash_not_injective :
  ServiceBuild.Args (Service.Build service_args_one)
    ≠ ServiceBuild.Args (Service.Build service_args_two) ∧
  (∀ lib : GoLib, BuildHash (lib:=lib) service_args_one
                  = BuildHash (lib:=lib) service_args_two) ∧
  BuildHash (lib:=Ascii7.lib) service_args_one = "aa679d4bf2745327981c2b46f8d127616b294c91" ∧
  BuildHash (lib:=Ascii7.lib) service_args_two = "aa679d4bf2745327981c2b46f8d127616b294c91".
Proof. split_and!; [done|done|by_evaluation..]. Qed.

(** C8 (amended): [BuildHash] is deterministic, and depends on the build
    arguments through their joining by single spaces only: two services with
    the same build path, the same image and the same joined arguments (so,
    in particular, with identical path, arguments and image) have the same
    hash. *)
Theorem BuildHash_deterministic {lib : GoLib} (s1 s2 : Service.t) :
  ServiceBuild.Path (Service.Build s1) = ServiceBuild.Path (Service.Build s2) →
  Join (ServiceBuild.Args (Service.Build s1)) " "
    = Join (ServiceBuild.Args (Service.Build s2)) " " →
  Service.Image s1 = Service.Image s2 →
  BuildHash s1 = BuildHash s2.
Proof.
  intros Hpath Hargs Himage. unfold BuildHash, fmt_v_strings.
  by rewrite Hpath, Hargs, Himage.
Qed.

Lemma BuildHash_deterministic_witness :
  BuildHash (lib:=Ascii7.lib) service_args_one
  = BuildHash (lib:=Ascii7.lib) service_args_two.
Proof.
  apply (BuildHash_deterministic (lib:=Ascii7.lib) service_args_one service_args_two);
    reflexivity.
Defined.

(** * More of the code *)

(** ** Package manifest *)

(** X1: [Find] returns the first service of the list that has the name
    asked for, and fails with the service-not-found error exactly when no
    service has it. *)
Theorem Find_first_match (ss : list Service.t) (name : string) :
  (∀ s, Find ss name = Ok s ↔
        ∃ pre post, ss = pre ++ s :: post ∧ Service.Name s = name ∧
                    ∀ s', s' ∈ pre → Service.Name s' ≠ name) ∧
  (∀ err, Find ss name = Err err ↔
          err = ErrServiceNotFound name ∧ ∀ s, s ∈ ss → Service.Name s ≠ name).
Proof.
  induction ss as [|s0 rest [IHok IHerr]]; simpl.
  - split.
    + intros s. split; [done|]. intros (pre & post & Heq & _).
      by destruct pre.
    + intros err. split.
      * intros [= <-]. split; [done|]. by intros s ?%elem_of_nil.
      * by intros [-> _].
  - destruct (String.eqb_spec (Service.Name s0) name) as [Hname|Hname].
    + split.
      * intros s. split.
        -- intros [= <-]. exists [], rest. split_and!; [done..|].
           by intros s' ?%elem_of_nil.
        -- intros (pre & post & Heq & Hs & Hpre). destruct pre as [|s1 pre].
           ++ by injection Heq as -> _.
           ++ injection Heq as <- _. exfalso. apply (Hpre s0); [by left|done].
      * intros err. split; [done|]. intros [_ Hno]. exfalso.
        apply (Hno s0); [by left|done].
    + split.
      * intros s. rewrite IHok. split.
        -- intros (pre & post & -> & Hs & Hpre). exists (s0 :: pre), post.
           split_and!; [done..|]. by intros s' [->|?]%elem_of_cons; [|apply Hpre].
        -- intros (pre & post & Heq & Hs & Hpre). destruct pre as [|s1 pre].
           ++ injection Heq as <- _. done.
           ++ injection Heq as <- ->. exists pre, post. split_and!; [done..|].
              intros s' Hs'. apply Hpre. by right.
      * intros err. rewrite IHerr. split.
        -- intros [-> Hno]. split; [done|].
           by intros s [->|?]%elem_of_cons; [|apply Hno].
        -- intros [-> Hno]. split; [done|]. intros s Hs. apply Hno. by right.
Qed.

Lemma parseEnv_fold_other (env : list string) (acc : gmap string string) (k : string) :
  has_equals k = false → (∀ v, k +:+ "=" +:+ v ∉ env) →
  foldl (λ parsed e, match SplitN_equals_2 e with
                     | [k; v] => <[k:=v]> parsed
                     | _ => parsed
                     end) acc env !! k = acc !! k.
Proof.
  intros Hk. revert acc. induction env as [|e rest IH]; intros acc Hno; simpl; [done|].
  rewrite IH by (intros v Hin; apply (Hno v); by right).
  unfold SplitN_equals_2. destruct (cut_equals e) as [[k' v']|] eqn:He; [|done].
  apply cut_equals_Some in He as [Hk' ->].
  rewrite lookup_insert_ne; [done|]. intros ->. apply (Hno v'). by left.
Qed.

Lemma parseEnv_fold_keys (env : list string) (acc : gmap string string) (k : string) :
  is_Some (foldl (λ parsed e, match SplitN_equals_2 e with
                              | [k; v] => <[k:=v]> parsed
                              | _ => parsed
                              end) acc env !! k) →
  is_Some (acc !! k) ∨ has_equals k = false.
Proof.
  revert acc. induction env as [|e rest IH]; intros acc; simpl; [by left|].
  intros [Hacc|Hk]%IH; [|by right].
  unfold SplitN_equals_2 in Hacc. destruct (cut_equals e) as [[k' v']|] eqn:He; [|by left].
  apply cut_equals_Some in He as [Hk' ->].
  destruct (decide (k' = k)) as [<-|Hne]; [by right|].
  rewrite lookup_insert_ne in Hacc by done. by left.
Qed.

(** X2: of the ambient entries that read [k=...], the last one gives the
    value of [k], and the value is everything after the first '=', later
    '=' included; a key of the parsed environment never contains '='. *)
Theorem parseEnv_last_entry_wins (env1 env2 : list string) (k v : string) :
  has_equals k = false →
  (∀ v', k +:+ "=" +:+ v' ∉ env2) →
  parseEnv (env1 ++ (k +:+ "=" +:+ v) :: env2) !! k = Some v ∧
  (∀ env k', is_Some (parseEnv env !! k') → has_equals k' = false).
Proof.
  intros Hk Hno. split.
  - rewrite parseEnv_app. simpl. rewrite parseEnv_fold_other by done.
    rewrite SplitN_optional by done. apply lookup_insert_eq.
  - intros env k' [Hacc|?]%parseEnv_fold_keys; [|done].
    rewrite lookup_empty in Hacc. by destruct Hacc.
Qed.

Lemma parseEnv_last_entry_wins_witness :
  parseEnv ["URL=a"; "PORT=1"; "URL=b=c"; "PORT"] !! "URL" = Some "b=c".
Proof.
  apply (parseEnv_last_entry_wins ["URL=a"; "PORT=1"] ["PORT"] "URL" "b=c").
  - reflexivity.
  - intros v' [Heq|[]%elem_of_nil]%elem_of_cons. discriminate Heq.
Defined.

Lemma resolved_dom (penv full : gmap string string) (entries : list string) :
  dom (resolved penv full entries) = dom full ∪ list_to_set (entry_key <$> entries).
Proof.
  unfold resolved. revert full.
  induction entries as [|e rest IH]; intros full; simpl.
  - by rewrite (right_id_L ∅ (∪)).
  - rewrite IH, dom_insert_L.
    by rewrite (comm_L (∪) {[entry_key e]} (dom full)), <- (assoc_L (∪)).
Qed.

(** X3: when [Env] succeeds, the keys of the environment it returns are
    exactly the keys the service declares: an ambient variable the service
    does not declare is not passed on, and every declared key has a value. *)
Theorem Env_resolves_the_declared_keys (s : Service.t) (env : list string)
    (full : gmap string string) :
  Env s env = Ok full →
  dom full = list_to_set (entry_key <$> Service.Environment s).
Proof.
  intros ->%Env_loop_Ok. by rewrite resolved_dom, dom_empty_L, (left_id_L ∅ (∪)).
Qed.

Lemma Env_resolves_the_declared_keys_witness :
  ∃ full, Env service_K_opt ["K=v"; "HOME=/root"] = Ok full ∧
          dom full = ({["K"; "PORT"]} : gset string).
Proof.
  exists (value ∅ (Env service_K_opt ["K=v"; "HOME=/root"])).
  split; [by_evaluation|].
  rewrite (Env_resolves_the_declared_keys service_K_opt ["K=v"; "HOME=/root"])
    by by_evaluation.
  simpl. by rewrite (right_id_L ∅ (∪)).
Defined.

Lemma word_bytes_length (x : Z) : length (SHA1.word_bytes x) = 4%nat.
Proof. unfold SHA1.word_bytes. by rewrite length_fmap, length_seqZ. Qed.

Lemma SHA1_Sum_length (s : string) : length (SHA1.Sum s) = 20%nat.
Proof.
  unfold SHA1.Sum, SHA1.digest. rewrite length_fmap.
  destruct (SHA1.blocks _ _ _) as [[[[h0 h1] h2] h3] h4].
  by rewrite !length_app, !word_bytes_length.
Qed.

Lemma hex_digits_of_byte (b : ascii) :
  is_hex_digit (hex_digit (N_of_ascii b / 16)) = true ∧
  is_hex_digit (hex_digit (N_of_ascii b mod 16)) = true.
Proof. destruct b as [[] [] [] [] [] [] [] []]; by vm_compute. Qed.

Lemma fmt_x_format (bytes : list ascii) :
  String.length (fmt_x bytes) = (2 * length bytes)%nat ∧
  Forall (λ c, is_hex_digit c = true) (list_ascii_of_string (fmt_x bytes)).
Proof.
  induction bytes as [|b rest [IHlen IHhex]]; [done|].
  destruct (hex_digits_of_byte b) as [Hhi Hlo]. split.
  - simpl in *. rewrite IHlen. lia.
  - simpl. by repeat constructor.
Qed.

(** X4: whatever the service, [BuildHash] is a string of forty characters,
    each a digit or a letter from a to f. *)
Theorem BuildHash_is_forty_hex_digits {lib : GoLib} (s : Service.t) :
  String.length (BuildHash s) = 40%nat ∧
  Forall (λ c, is_hex_digit c = true) (list_ascii_of_string (BuildHash s)).
Proof.
  unfold BuildHash. destruct (fmt_x_format (SHA1.Sum
    ("build[path=" +:+ strconv_Quote (ServiceBuild.Path (Service.Build s))
     +:+ ", args=" +:+ fmt_v_strings (ServiceBuild.Args (Service.Build s))
     +:+ "] image=" +:+ strconv_Quote (Service.Image s)))) as [Hlen Hhex].
  split; [|done]. by rewrite Hlen, SHA1_Sum_length.
Qed.

(** ** The resource catalog and the container spec builder *)

Lemma string_app_assoc (s1 s2 s3 : string) : (s1 +:+ s2) +:+ s3 = s1 +:+ s2 +:+ s3.
Proof.
  induction s1 as [|c s1 IH]; [done|].
  change (String c ((s1 +:+ s2) +:+ s3) = String c (s1 +:+ s2 +:+ s3)). by rewrite IH.
Qed.

(** X5: the three lookups of the catalog know the same two types and fail
    alike on any other; and on a rack named "convox" the URL of a resource
    is made of the host name and the port of the resource's container. *)
Theorem resource_catalog_is_consistent (p : Provider.t) (app release : string)
    (r : Resource.t) :
  (known_resource_type (Resource.Type_ r) →
   ∃ rp vs url,
     resourcePort (Resource.Type_ r) = Ok rp ∧
     resourceVolumes app (Resource.Type_ r) (Resource.Name r) = Ok vs ∧
     resourceURL app (Resource.Type_ r) (Resource.Name r) = Ok url ∧
     (Provider.Name p = "convox" →
      ∃ scheme path,
        url = scheme
              +:+ container.Hostname (resourceContainer p app release r rp vs)
              +:+ ":"
              +:+ Itoa (containerPort.Container
                          (container.Port (resourceContainer p app release r rp vs)))
              +:+ "/" +:+ path)) ∧
  (¬ known_resource_type (Resource.Type_ r) →
   resourcePort (Resource.Type_ r) = Err (ErrUnknownResourceType (Resource.Type_ r)) ∧
   resourceVolumes app (Resource.Type_ r) (Resource.Name r)
     = Err (ErrUnknownResourceType (Resource.Type_ r)) ∧
   resourceURL app (Resource.Type_ r) (Resource.Name r)
     = Err (ErrUnknownResourceType (Resource.Type_ r))).
Proof.
  unfold resourcePort, resourceVolumes, resourceURL, known_resource_type. split.
  - intros [Hk|Hk]; rewrite Hk; simpl.
    + eexists _, _, _. split_and!; [done..|]. intros ->.
      exists "postgres://postgres:password@", "app?sslmode=disable".
      simpl. by rewrite !string_app_assoc.
    + eexists _, _, _. split_and!; [done..|]. intros ->.
      exists "redis://", "0". simpl. by rewrite !string_app_assoc.
  - intros Hno. rewrite !decide_False by tauto. done.
Qed.

Lemma resource_catalog_is_consistent_witness :
  ∃ url, resourceURL "myapp" "redis" "db" = Ok url ∧
         url = "redis://" +:+ "db.resource.myapp.convox" +:+ ":" +:+ "6379" +:+ "/" +:+ "0".
Proof.
  destruct (resource_catalog_is_consistent (Provider.mk "convox" "test") "myapp" "R1"
              Example.db) as [Hknown _].
  destruct Hknown as (rp & vs & url & Hrp & Hvs & Hurl & _); [by right|].
  exists url. split; [exact Hurl|]. simpl in Hurl. by injection Hurl as <-.
Defined.

Lemma resourceLoop_known (p : Provider.t) app release resources cs :
  (∀ r, r ∈ resources → known_resource_type (Resource.Type_ r)) →
  resourceLoop p app release resources cs
  = Ok (cs ++ (resource_container p app release <$> resources)).
Proof.
  revert cs. induction resources as [|r rest IH]; intros cs Hall; simpl.
  - by rewrite app_nil_r.
  - unfold resource_container at 1.
    assert (known_resource_type (Resource.Type_ r)) as Hr by (apply Hall; by left).
    unfold resourcePort, resourceVolumes.
    destruct Hr as [Hr|Hr]; rewrite Hr; simpl;
      (rewrite IH by (intros r' Hr'; apply Hall; by right));
      rewrite <- app_assoc; unfold resourceContainer; simpl; by rewrite Hr.
Qed.

Lemma resourceLoop_unknown (p : Provider.t) app release pre r post cs :
  (∀ r', r' ∈ pre → known_resource_type (Resource.Type_ r')) →
  ¬ known_resource_type (Resource.Type_ r) →
  resourceLoop p app release (pre ++ r :: post) cs
  = Err (ErrUnknownResourceType (Resource.Type_ r)).
Proof.
  revert cs. induction pre as [|r0 pre IH]; intros cs Hpre Hr; simpl.
  - unfold resourcePort, known_resource_type in *. by rewrite !decide_False by tauto.
  - assert (known_resource_type (Resource.Type_ r0)) as Hr0 by (apply Hpre; by left).
    unfold resourcePort, resourceVolumes.
    destruct Hr0 as [Hr0|Hr0]; rewrite Hr0; simpl;
      apply IH; [|done| |done]; intros r' Hr'; apply Hpre; by right.
Qed.

(** X6: when the catalog knows the type of every resource, resource
    synthesis returns one container per resource, in the order of the
    manifest, each with the catalog's port on both sides of its port
    mapping; otherwise it returns no container but the unknown-type error
    of the first resource whose type is not known. *)
Theorem resourceContainers_all_or_nothing (p : Provider.t)
    (resources : list Resource.t) (app release : string) :
  ((∀ r, r ∈ resources → known_resource_type (Resource.Type_ r)) →
   resourceContainers p resources app release
   = Ok (resource_container p app release <$> resources)) ∧
  (∀ pre r post,
     resources = pre ++ r :: post →
     (∀ r', r' ∈ pre → known_resource_type (Resource.Type_ r')) →
     ¬ known_resource_type (Resource.Type_ r) →
     resourceContainers p resources app release
     = Err (ErrUnknownResourceType (Resource.Type_ r))).
Proof.
  unfold resourceContainers. split.
  - intros Hall. by rewrite resourceLoop_known.
  - intros pre r post -> Hpre Hr. by apply resourceLoop_unknown.
Qed.

Lemma resourceContainers_all_or_nothing_witness :
  resourceContainers Example.provider [Example.db; Resource.mk "queue" "kafka"; Example.db]
    "myapp" "R1"
  = Err (ErrUnknownResourceType "kafka").
Proof.
  destruct (resourceContainers_all_or_nothing Example.provider
              [Example.db; Resource.mk "queue" "kafka"; Example.db] "myapp" "R1")
    as [_ Hunknown].
  apply (Hunknown [Example.db] (Resource.mk "queue" "kafka") [Example.db]).
  - reflexivity.
  - intros r' ->%list_elem_of_singleton. by right.
  - by intros [?|?].
Defined.

Section ServiceSynthesis.
Context {lib : GoLib} {stages : Stages} {World : Type} {host : Collaborators World}.
Variable p : Provider.t.

Lemma serviceStep_ok sys m r app release stage w s cs command e :
  stageCommand s stage = Ok command →
  service_env m app w s = Ok e →
  serviceStep p sys m r app release stage w s cs
  = Ok (cs ++ service_containers p sys r app release s command e).
Proof.
  unfold serviceStep, service_env, service_containers, service_command.
  intros -> (env & -> & Hres)%result_bind_Ok. simpl. rewrite Hres. simpl.
  case_decide; by rewrite <- ?app_assoc.
Qed.

Lemma serviceLoop_ok sys m r app release stage w services cs
    (command : Service.t → string) (env : Service.t → gmap string string) :
  (∀ s, s ∈ services → stageCommand s stage = Ok (command s)) →
  (∀ s, s ∈ services → service_env m app w s = Ok (env s)) →
  serviceLoop p sys m r app release stage w services cs
  = Ok (cs ++ (s ← services;
               service_containers p sys r app release s (command s) (env s))).
Proof.
  revert cs. induction services as [|s rest IH]; intros cs Hcmd Henv; simpl.
  - by rewrite app_nil_r.
  - rewrite (serviceStep_ok sys m r app release stage w s cs (command s) (env s))
      by (first [apply Hcmd|apply Henv]; by left).
    simpl. rewrite IH by (intros s' Hs'; first [apply Hcmd|apply Henv]; by right).
    by rewrite <- app_assoc.
Qed.

(** X7: outside stage test, when the system and the release are known and
    every service has a command for the stage and an environment, service
    synthesis returns, for each service in the order of the manifest, one
    endpoint container if the service's port is positive, then the replicas
    numbered from 1 to the service's minimum count (none when the count is
    zero or negative), all replicas of a service with the same image,
    command, environment, memory and volumes. *)
Theorem serviceContainers_fan_out (services : list Service.t) (app release : string)
    (stage : Z) (w : World) (sys : System.t) (m : Manifest.t) (r : Release.t)
    (command : Service.t → string) (env : Service.t → gmap string string) :
  stage ≠ StageTest →
  SystemGet w = Ok sys →
  ReleaseManifest app release w = Ok (m, r) →
  (∀ s, s ∈ services → stageCommand s stage = Ok (command s)) →
  (∀ s, s ∈ services → service_env m app w s = Ok (env s)) →
  serviceContainers p services app release stage w
  = Ok (s ← services; service_containers p sys r app release s (command s) (env s)) ∧
  (∀ s, length (service_containers p sys r app release s (command s) (env s))
        = ((if decide (0 < ServicePort.Port (Service.Port s))%Z then 1 else 0)
           + Z.to_nat (ServiceCount.Min (ServiceScale.Count (Service.Scale s))))%nat).
Proof.
  intros Hstage Hsys Hrel Hcmd Henv. split.
  - unfold serviceContainers. rewrite decide_False by done.
    rewrite Hsys. simpl. rewrite Hrel. simpl.
    by rewrite (serviceLoop_ok sys m r app release stage w services [] command env).
  - intros s. unfold service_containers.
    rewrite length_app, length_fmap, length_seqZ. by case_decide.
Qed.


Lemma resourceEnv_other app sr resources (e e' : gmap string string) k :
  resourceEnv app sr resources e = Ok e' →
  k ≠ strings_ToUpper sr +:+ "_URL" → e' !! k = e !! k.
Proof.
  intros Hrun Hk. revert e Hrun.
  induction resources as [|r rest IH]; intros e; simpl; [by intros [= <-]|].
  case_decide; [|apply IH].
  intros (u & _ & Hrest)%result_bind_Ok. apply IH in Hrest.
  by rewrite Hrest, lookup_insert_ne.
Qed.

Lemma resourceEnv_undeclared app sr resources (e : gmap string string) :
  (∀ r, r ∈ resources → Resource.Name r ≠ sr) →
  resourceEnv app sr resources e = Ok e.
Proof.
  induction resources as [|r rest IH]; intros Hno; simpl; [done|].
  rewrite decide_False by (apply Hno; by left).
  apply IH. intros r' Hr'. apply Hno. by right.
Qed.

(** X9: adding the resource URLs changes no entry of the environment other
    than the keys made of a consumed resource's upper-cased name and "_URL";
    and a consumed name that no resource of the manifest bears is passed
    over: it adds no entry and raises no error. *)
Theorem addResources_frame (app : string) (srs : list string)
    (resources : list Resource.t) (e : gmap string string) :
  (∀ e' k, addResources app srs resources e = Ok e' →
           (∀ sr, sr ∈ srs → k ≠ strings_ToUpper sr +:+ "_URL") →
           e' !! k = e !! k) ∧
  ((∀ sr r, sr ∈ srs → r ∈ resources → Resource.Name r ≠ sr) →
   addResources app srs resources e = Ok e).
Proof.
  split.
  - intros e' k. revert e. induction srs as [|sr rest IH]; intros e; simpl.
    + by intros [= <-].
    + intros (e1 & Hsr & Hrest)%result_bind_Ok Hk.
      rewrite (IH e1 Hrest) by (intros sr' Hsr'; apply Hk; by right).
      apply (resourceEnv_other app sr resources e e1 k Hsr). apply Hk. by left.
  - revert e. induction srs as [|sr rest IH]; intros e Hno; simpl; [done|].
    rewrite resourceEnv_undeclared by (intros r Hr; apply (Hno sr r); [by left|done]).
    simpl. apply IH. intros sr' r Hsr' Hr. apply Hno; [by right|done].
Qed.
End ServiceSynthesis.

Lemma serviceContainers_fan_out_witness :
  container.Name
    <$> value [] (serviceContainers (lib:=Ascii7.lib) (stages:=example_stages)
                    (host:=Sim.host) Example.provider [Example.web] "myapp" "R1" 2
                    Example.world)
  = ["dev.myapp.endpoint.web"; "dev.myapp.service.web.1"; "dev.myapp.service.web.2"].
Proof.
  destruct (serviceContainers_fan_out (lib:=Ascii7.lib) (stages:=example_stages)
              (host:=Sim.host) Example.provider [Example.web] "myapp" "R1" 2
              Example.world (System.mk "convox/praxis") Example.manifest Example.release
              (λ _, "bin/web")
              (λ s, value ∅ (service_env (lib:=Ascii7.lib) (host:=Sim.host)
                               Example.manifest "myapp" Example.world s)))
    as [-> _].
  - discriminate.
  - reflexivity.
  - reflexivity.
  - intros s ->%list_elem_of_singleton. reflexivity.
  - intros s ->%list_elem_of_singleton. by_evaluation.
  - by_evaluation.
Defined.


Lemma addResources_frame_witness :
  addResources (lib:=Ascii7.lib) "myapp" ["cache"] [Example.db] {["PORT" := "3000"]}
  = Ok {["PORT" := "3000"]}.
Proof.
  destruct (addResources_frame (lib:=Ascii7.lib) "myapp" ["cache"] [Example.db]
              {["PORT" := "3000"]}) as [_ Hskip].
  apply Hskip.
  intros sr r ->%list_elem_of_singleton ->%list_elem_of_singleton. discriminate.
Defined.

(** ** More of the convergence engine *)

Section EngineCalls.
Context {lib : GoLib} {stages : Stages} {World : Type} {host : Collaborators World}.
Variable p : Provider.t.



End EngineCalls.

Section EngineOrder.
Context {lib : GoLib} {stages : Stages} {World : Type} {host : Collaborators World}.
Variable p : Provider.t.



Lemma resourceContainers_unknown (resources : list Resource.t) (app release : string)
    (r : Resource.t) :
  r ∈ resources → ¬ known_resource_type (Resource.Type_ r) →
  is_Err (resourceContainers p resources app release).
Proof.
  unfold resourceContainers. generalize (@nil container.t).
  induction resources as [|r0 rest IH]; intros cs Hin Hr.
  - by apply elem_of_nil in Hin.
  - simpl. apply elem_of_cons in Hin as [<-|Hin].
    + unfold resourcePort, known_resource_type in *.
      rewrite !decide_False by tauto. by eexists.
    + destruct (resourcePort (Resource.Type_ r0)) as [rp|e]; simpl; [|by eexists].
      destruct (resourceVolumes app (Resource.Type_ r0) (Resource.Name r0)) as [vs|e];
        simpl; [by apply IH|by eexists].
Qed.

(** X12: a manifest that cannot be synthesized is not converged at all.
    When the manifest has a resource whose type the catalog does not know,
    or, outside stage test, a balancer endpoint with neither redirect nor
    target, [converge] fails and leaves the world and the trace as they
    were: no container is created, registered or stopped. *)
Theorem converge_rejects_the_manifest_untouched (app : string) (w : World)
    (tr : list action) (m : Manifest.t) (r : Release.t) :
  AppManifest app w = Ok (m, r) →
  (∃ res, res ∈ Manifest.Resources m ∧ ¬ known_resource_type (Resource.Type_ res)) ∨
  (Release.Stage r ≠ StageTest ∧
   ∃ b e, b ∈ Manifest.Balancers m ∧ e ∈ Balancer.Endpoints b ∧
          Endpoint.Redirect e = "" ∧ Endpoint.Target e = "") →
  ∃ err, converge p app (w, tr) = (Err err, (w, tr)).
Proof.
  intros Hm Hbad.
  assert (is_Err (desired p app m r w)) as [err Herr].
  { unfold desired.
    destruct (balancerContainers p (Manifest.Balancers m) app (Release.Id r)
                (Release.Stage r) w) as [c1|e1] eqn:Hb; [|by eexists].
    simpl. destruct Hbad as [(res & Hin & Hres)|(Hstage & b & e & Hb' & He & Hr & Ht)].
    - destruct (resourceContainers_unknown (Manifest.Resources m) app (Release.Id r)
                  res Hin Hres) as [e2 ->]. by eexists.
    - exfalso. unfold balancerContainers in Hb. rewrite decide_False in Hb by done.
      destruct (SystemGet w) as [sys|]; [|done]. simpl in Hb.
      destruct (balancerLoop_invalid p sys app (Release.Id r) (Manifest.Balancers m) []
                  b e Hb' He Hr Ht) as [e2 He2]. congruence. }
  exists err. unfold converge. run_query Hm. by run_query Herr.
Qed.
End EngineOrder.



Lemma converge_rejects_the_manifest_untouched_witness :
  ∃ err,
    converge (lib:=Ascii7.lib) (stages:=example_stages) (host:=Sim.host)
      Example.provider "myapp"
      (with_manifest Example.world
         (Manifest.mk [] [Resource.mk "queue" "kafka"] [Example.web]) Example.release, [])
    = (Err err,
       (with_manifest Example.world
          (Manifest.mk [] [Resource.mk "queue" "kafka"] [Example.web]) Example.release, [])).
Proof.
  apply (converge_rejects_the_manifest_untouched (lib:=Ascii7.lib)
           (stages:=example_stages) (host:=Sim.host) Example.provider "myapp" _ []
           (Manifest.mk [] [Resource.mk "queue" "kafka"] [Example.web]) Example.release).
  - reflexivity.
  - left. exists (Resource.mk "queue" "kafka"). split; [by left|by intros [?|?]].
Defined.

Section DesiredList.
Context {lib : GoLib} {stages : Stages} {World : Type} {host : Collaborators World}.
Variable p : Provider.t.

(** X13: for a release in stage test the desired list is the resource
    containers and nothing else, so converging it keeps the resources
    running and treats every balancer, endpoint and service replica of the
    application as an orphan. *)
Theorem desired_in_test_stage (app : string) (m : Manifest.t) (r : Release.t)
    (w : World) :
  Release.Stage r = StageTest →
  desired p app m r w = resourceContainers p (Manifest.Resources m) app (Release.Id r).
Proof.
  intros Hstage. unfold desired, balancerContainers, serviceContainers.
  rewrite Hstage, !decide_True by done. simpl.
  destruct (resourceContainers p (Manifest.Resources m) app (Release.Id r)) as [c|e];
    simpl; [|done].
  by rewrite app_nil_r.
Qed.

Lemma balancerContainer_labelled sys app release b e command :
  labelled p app release (balancerContainer p sys app release b e command).
Proof.
  label_lookup. split_and!; [done..|]. exists "balancer". split; [|done].
  apply elem_of_cons. by left.
Qed.

Lemma resourceContainer_labelled app release r rp vs :
  labelled p app release (resourceContainer p app release r rp vs).
Proof.
  label_lookup. split_and!; [done..|]. exists "resource". split; [|done].
  do 1 (apply elem_of_cons; right). apply elem_of_cons. by left.
Qed.

Lemma endpointContainer_labelled sys app release s :
  labelled p app release (endpointContainer p sys app release s).
Proof.
  label_lookup. split_and!; [done..|]. exists "endpoint". split; [|done].
  do 2 (apply elem_of_cons; right). apply elem_of_cons. by left.
Qed.

Lemma serviceContainer_labelled app release r s cmd e i :
  labelled p app release (serviceContainer p app release r s cmd e i).
Proof.
  label_lookup. split_and!; [done..|]. exists "service". split; [|done].
  do 3 (apply elem_of_cons; right). apply elem_of_cons. by left.
Qed.

Lemma balancerEndpoints_Forall (P : container.t → Prop) sys app release b es cs cs' :
  (∀ e command, P (balancerContainer p sys app release b e command)) →
  Forall P cs →
  balancerEndpoints p sys app release b es cs = Ok cs' → Forall P cs'.
Proof.
  intros HP. revert cs. induction es as [|e rest IH]; intros cs Hcs; simpl.
  - by intros [= <-].
  - intros (command & _ & Hrest)%result_bind_Ok. apply IH in Hrest; [done|].
    apply Forall_app. split; [done|]. by constructor.
Qed.

Lemma balancerLoop_Forall (P : container.t → Prop) sys app release balancers cs cs' :
  (∀ b e command, P (balancerContainer p sys app release b e command)) →
  Forall P cs →
  balancerLoop p sys app release balancers cs = Ok cs' → Forall P cs'.
Proof.
  intros HP. revert cs. induction balancers as [|b rest IH]; intros cs Hcs; simpl.
  - by intros [= <-].
  - intros (cs1 & Hb & Hrest)%result_bind_Ok. apply IH in Hrest; [done|].
    eapply (balancerEndpoints_Forall P); [|exact Hcs|exact Hb]. intros. apply HP.
Qed.

Lemma resourceLoop_Forall (P : container.t → Prop) app release resources cs cs' :
  (∀ r rp vs, P (resourceContainer p app release r rp vs)) →
  Forall P cs →
  resourceLoop p app release resources cs = Ok cs' → Forall P cs'.
Proof.
  intros HP. revert cs. induction resources as [|r rest IH]; intros cs Hcs; simpl.
  - by intros [= <-].
  - intros (rp & _ & (vs & _ & Hrest)%result_bind_Ok)%result_bind_Ok.
    apply IH in Hrest; [done|]. apply Forall_app. split; [done|]. by constructor.
Qed.

Lemma serviceLoop_Forall (P : container.t → Prop) sys m r app release stage w
    services cs cs' :
  (∀ s, P (endpointContainer p sys app release s)) →
  (∀ s cmd e i, P (serviceContainer p app release r s cmd e i)) →
  Forall P cs →
  serviceLoop p sys m r app release stage w services cs = Ok cs' → Forall P cs'.
Proof.
  intros HE HS. revert cs. induction services as [|s rest IH]; intros cs Hcs; simpl.
  - by intros [= <-].
  - intros (cs1 & Hstep & Hrest)%result_bind_Ok. apply IH in Hrest; [done|].
    unfold serviceStep in Hstep.
    apply result_bind_Ok in Hstep as (command & _ & Hstep).
    apply result_bind_Ok in Hstep as (env & _ & Hstep).
    apply result_bind_Ok in Hstep as (e & _ & [= <-]).
    apply Forall_app. split.
    + case_decide; [|done]. apply Forall_app. split; [done|]. by constructor.
    + apply Forall_fmap, Forall_forall. intros i _. apply HS.
Qed.

Lemma desired_Forall (P : container.t → Prop) app m r w D :
  (∀ sys b e command, P (balancerContainer p sys app (Release.Id r) b e command)) →
  (∀ res rp vs, P (resourceContainer p app (Release.Id r) res rp vs)) →
  (∀ sys s, P (endpointContainer p sys app (Release.Id r) s)) →
  (∀ r' s cmd e i, P (serviceContainer p app (Release.Id r) r' s cmd e i)) →
  desired p app m r w = Ok D → Forall P D.
Proof.
  intros HB HR HE HS. unfold desired.
  intros (c1 & Hc1 & (c2 & Hc2 & (c3 & Hc3 & [= <-])%result_bind_Ok)%result_bind_Ok)
    %result_bind_Ok.
  simpl. rewrite !Forall_app. split_and!.
  - unfold balancerContainers in Hc1. case_decide; [by injection Hc1 as <-|].
    apply result_bind_Ok in Hc1 as (sys & _ & Hloop).
    eapply (balancerLoop_Forall P); [|constructor|exact Hloop]. intros. apply HB.
  - eapply (resourceLoop_Forall P); [|constructor|exact Hc2]. intros. apply HR.
  - unfold serviceContainers in Hc3. case_decide; [by injection Hc3 as <-|].
    apply result_bind_Ok in Hc3 as (sys & _ & ([m' r'] & _ & Hloop)%result_bind_Ok).
    eapply (serviceLoop_Forall P); [| |constructor|exact Hloop]; intros;
      [apply HE|apply HS].
Qed.

(** X14: every container of the desired list carries the labels of the
    rack, the version, the application and the release it was synthesized
    for, and a type label that is balancer, resource, endpoint or service,
    never process: the label query for process containers cannot return a
    container only because the builder labelled it so. *)
Theorem desired_containers_are_labelled (app : string) (m : Manifest.t) (r : Release.t)
    (w : World) (D : list container.t) :
  desired p app m r w = Ok D →
  Forall (labelled p app (Release.Id r)) D ∧
  Forall (λ c, container.Labels c !! "convox.type" ≠ Some "process") D.
Proof.
  intros HD. split.
  - revert HD. apply desired_Forall; intros.
    + apply balancerContainer_labelled.
    + apply resourceContainer_labelled.
    + apply endpointContainer_labelled.
    + apply serviceContainer_labelled.
  - revert HD. apply desired_Forall; intros; simpl;
      repeat (rewrite lookup_insert_eq || rewrite lookup_insert_ne by discriminate);
      discriminate.
Qed.
End DesiredList.

Lemma desired_in_test_stage_witness :
  container.Name
    <$> value [] (desired (lib:=Ascii7.lib) (stages:=example_stages) (host:=Sim.host)
                    Example.provider "myapp" Example.manifest (Release.mk "R1" "B1" 1)
                    Example.world)
  = ["dev.myapp.resource.db"].
Proof.
  rewrite (desired_in_test_stage (lib:=Ascii7.lib) (stages:=example_stages)
             (host:=Sim.host) Example.provider "myapp" Example.manifest
             (Release.mk "R1" "B1" 1) Example.world) by reflexivity.
  by_evaluation.
Defined.

Lemma desired_containers_are_labelled_witness :
  Forall (labelled Example.provider "myapp" "R1") Run.desired.
Proof.
  apply (desired_containers_are_labelled (lib:=Ascii7.lib) (stages:=example_stages)
           (host:=Sim.host) Example.provider "myapp" Example.manifest Example.release
           Example.world Run.desired).
  by_evaluation.
Defined.

(** ** Names of the desired containers *)

Lemma has_dot_pretty_N_go (x : N) (s : string) :
  has_dot (pretty_N_go x s) = has_dot s.
Proof.
  revert s. induction (N.lt_wf_0 x) as [x _ IH]; intros s.
  assert (x = 0 ∨ 0 < x)%N as [->|Hx] by lia.
  - by rewrite pretty_N_go_0.
  - rewrite pretty_N_go_step by done. rewrite IH by (by apply N.div_lt).
    simpl. unfold pretty_N_char. by repeat case_match.
Qed.

Lemma has_dot_Itoa (i : Z) : has_dot (Itoa i) = false.
Proof.
  unfold Itoa, pretty, pretty_Z.
  assert (∀ n : N, has_dot (pretty n) = false) as HN.
  { intros n. unfold pretty, pretty_N. case_decide; [done|].
    by rewrite has_dot_pretty_N_go. }
  destruct i as [|q|q]; [done|apply HN|].
  change (has_dot (String "-" (pretty (Npos q))) = false). simpl. apply HN.
Qed.

Lemma has_dot_app (n t : string) : has_dot (n +:+ String "." t) = true.
Proof. induction n as [|c n IH]; [done|]. simpl. rewrite IH. apply orb_true_r. Qed.

Lemma app_dot_inj (n1 n2 t1 t2 : string) :
  has_dot t1 = false → has_dot t2 = false →
  n1 +:+ "." +:+ t1 = n2 +:+ "." +:+ t2 → n1 = n2 ∧ t1 = t2.
Proof.
  intros Ht1 Ht2. revert n2. induction n1 as [|c n1 IH]; intros [|c2 n2] Heq.
  - change (String "." t1 = String "." t2) in Heq. by injection Heq as ->.
  - change (String "." t1 = String c2 (n2 +:+ String "." t2)) in Heq.
    injection Heq as <- ->. by rewrite has_dot_app in Ht1.
  - change (String c (n1 +:+ String "." t1) = String "." t2) in Heq.
    injection Heq as -> <-. by rewrite has_dot_app in Ht2.
  - change (String c (n1 +:+ "." +:+ t1) = String c2 (n2 +:+ "." +:+ t2)) in Heq.
    injection Heq as -> Heq. by destruct (IH _ Heq) as [-> ->].
Qed.

Lemma component_name_inj (p : Provider.t) (app : string) :
  Inj (=) (=) (component_name p app).
Proof.
  intros k1 k2 Heq. unfold component_name in Heq.
  destruct k1 as [n1|n1|n1|n1 i1], k2 as [n2|n2|n2|n2 i2];
    do 3 apply String.app_inj in Heq;
    try (apply (f_equal (String.get 1)) in Heq; simpl in Heq; discriminate Heq);
    apply String.app_inj in Heq; [by subst..|].
  apply app_dot_inj in Heq as [-> Hi]; [|apply has_dot_Itoa..].
  apply pretty_Z_inj in Hi as ->. done.
Qed.

Lemma NoDup_bind_keyed {A B K : Type} (f : A → K) (key : B → K) (g : A → list B)
    (l : list A) :
  NoDup (f <$> l) →
  (∀ x, x ∈ l → NoDup (g x)) →
  (∀ x y, x ∈ l → y ∈ g x → key y = f x) →
  NoDup (l ≫= g).
Proof.
  induction l as [|x rest IH]; intros Hf Hg Hkey; [constructor|].
  rewrite bind_cons. rewrite fmap_cons in Hf. apply NoDup_cons in Hf as [Hx Hrest].
  apply NoDup_app. split_and!.
  - apply Hg. by left.
  - intros y Hy (x' & Hy' & Hx')%list_elem_of_bind. apply Hx.
    apply list_elem_of_fmap. exists x'. split; [|done].
    rewrite <- (Hkey x y) by (done || by left). apply Hkey; [by right|done].
  - apply IH; [done|..].
    + intros x' Hx'. apply Hg. by right.
    + intros x' y Hx' Hy. apply Hkey; [by right|done].
Qed.

Lemma NoDup_sections (l1 l2 : list component) (i : nat) :
  Forall (λ k, component_section k = i) l1 →
  Forall (λ k, component_section k ≠ i) l2 →
  NoDup l1 → NoDup l2 → NoDup (l1 ++ l2).
Proof.
  intros H1 H2 Hd1 Hd2. apply NoDup_app. split_and!; [done| |done].
  intros k Hk1 Hk2. rewrite Forall_forall in H1, H2.
  by apply (H2 k Hk2), H1.
Qed.

Lemma service_components_section (s : Service.t) (k : component) :
  k ∈ (if decide (0 < ServicePort.Port (Service.Port s)) then [OfEndpoint (Service.Name s)]
       else [])
      ++ (OfReplica (Service.Name s)
            <$> seqZ 1 (ServiceCount.Min (ServiceScale.Count (Service.Scale s)))) →
  component_section k = 2%nat ∧ component_of k = Service.Name s.
Proof.
  intros [Hk|(i & -> & _)%list_elem_of_fmap]%elem_of_app; [|done].
  case_decide; [by apply list_elem_of_singleton in Hk as ->|by apply elem_of_nil in Hk].
Qed.

Lemma components_NoDup (m : Manifest.t) :
  NoDup (Balancer.Name <$> Manifest.Balancers m) →
  (∀ b, b ∈ Manifest.Balancers m → (length (Balancer.Endpoints b) ≤ 1)%nat) →
  NoDup (Resource.Name <$> Manifest.Resources m) →
  NoDup (Service.Name <$> Manifest.Services m) →
  NoDup (components m).
Proof.
  intros Hb Hone Hr Hs. unfold components.
  apply (NoDup_sections _ _ 0).
  - apply Forall_forall. intros k (b & Hk & _)%list_elem_of_bind.
    by apply list_elem_of_fmap in Hk as (e & -> & _).
  - apply Forall_forall.
    intros k [(r & -> & _)%list_elem_of_fmap|(s & Hk & _)%list_elem_of_bind]%elem_of_app;
      [done|].
    apply service_components_section in Hk as [-> _]. done.
  - apply (NoDup_bind_keyed Balancer.Name component_of); [done|..].
    + intros b Hin. specialize (Hone b Hin).
      destruct (Balancer.Endpoints b) as [|e [|e' es]]; simpl in *; [constructor| |lia].
      apply NoDup_singleton.
    + intros b k _ (e & -> & _)%list_elem_of_fmap. done.
  - apply (NoDup_sections _ _ 1).
    + apply Forall_forall. by intros k (r & -> & _)%list_elem_of_fmap.
    + apply Forall_forall. intros k (s & Hk & _)%list_elem_of_bind.
      apply service_components_section in Hk as [-> _]. done.
    + rewrite (list_fmap_compose Resource.Name OfResource).
      apply NoDup_fmap_2_strong; [|done]. by intros n1 n2 _ _ [= ->].
    + apply (NoDup_bind_keyed Service.Name component_of); [done|..].
      * intros s _. apply NoDup_app. split_and!.
        -- case_decide; [apply NoDup_singleton|constructor].
        -- intros k Hk (i & -> & _)%list_elem_of_fmap.
           case_decide; [by apply list_elem_of_singleton in Hk|by apply elem_of_nil in Hk].
        -- apply NoDup_fmap_2_strong; [|apply NoDup_seqZ]. by intros i j _ _ [= ->].
      * intros s k _ Hk. by apply service_components_section in Hk as [_ ->].
Qed.

Section DesiredNames.
Context {lib : GoLib} {stages : Stages} {World : Type} {host : Collaborators World}.
Variable p : Provider.t.

Lemma balancerEndpoints_names sys app release b es cs cs' :
  balancerEndpoints p sys app release b es cs = Ok cs' →
  container.Name <$> cs'
  = (container.Name <$> cs)
    ++ (component_name p app <$> ((λ _, OfBalancer (Balancer.Name b)) <$> es)).
Proof.
  revert cs. induction es as [|e rest IH]; intros cs; simpl.
  - intros [= <-]. by rewrite app_nil_r.
  - intros (command & _ & Hrest)%result_bind_Ok. rewrite (IH _ Hrest).
    by rewrite fmap_app, <- app_assoc.
Qed.

Lemma balancerLoop_names sys app release balancers cs cs' :
  balancerLoop p sys app release balancers cs = Ok cs' →
  container.Name <$> cs'
  = (container.Name <$> cs)
    ++ (component_name p app
          <$> (b ← balancers; (λ _, OfBalancer (Balancer.Name b)) <$> Balancer.Endpoints b)).
Proof.
  revert cs. induction balancers as [|b rest IH]; intros cs; simpl.
  - intros [= <-]. by rewrite app_nil_r.
  - intros (cs1 & Hb & Hrest)%result_bind_Ok. rewrite (IH _ Hrest).
    rewrite (balancerEndpoints_names _ _ _ _ _ _ _ Hb).
    by rewrite fmap_app, <- app_assoc.
Qed.

Lemma resourceLoop_names app release resources cs cs' :
  resourceLoop p app release resources cs = Ok cs' →
  container.Name <$> cs'
  = (container.Name <$> cs)
    ++ (component_name p app <$> ((λ r, OfResource (Resource.Name r)) <$> resources)).
Proof.
  revert cs. induction resources as [|r rest IH]; intros cs; simpl.
  - intros [= <-]. by rewrite app_nil_r.
  - intros (rp & _ & (vs & _ & Hrest)%result_bind_Ok)%result_bind_Ok.
    rewrite (IH _ Hrest). by rewrite fmap_app, <- app_assoc.
Qed.

Lemma serviceLoop_names sys m r app release stage w services cs cs' :
  serviceLoop p sys m r app release stage w services cs = Ok cs' →
  container.Name <$> cs'
  = (container.Name <$> cs)
    ++ (component_name p app
          <$> (s ← services;
               (if decide (0 < ServicePort.Port (Service.Port s)) then
                  [OfEndpoint (Service.Name s)]
                else [])
               ++ (OfReplica (Service.Name s)
                     <$> seqZ 1 (ServiceCount.Min (ServiceScale.Count (Service.Scale s)))))).
Proof.
  revert cs. induction services as [|s rest IH]; intros cs; simpl.
  - intros [= <-]. by rewrite app_nil_r.
  - intros (cs1 & Hstep & Hrest)%result_bind_Ok. rewrite (IH _ Hrest).
    unfold serviceStep in Hstep.
    apply result_bind_Ok in Hstep as (command & _ & Hstep).
    apply result_bind_Ok in Hstep as (env & _ & Hstep).
    apply result_bind_Ok in Hstep as (e & _ & [= <-]).
    destruct (decide (0 < ServicePort.Port (Service.Port s))); simpl;
      rewrite !fmap_app, <- ?app_assoc, <- ?list_fmap_compose; done.
Qed.

(** X15: outside stage test the names of the desired containers are, in
    order, those of the manifest's components: one per balancer endpoint
    (under the balancer's name), one per resource, and for each service one
    for its endpoint if it has a port, then one per replica. A container's
    name determines its component, so when no balancer has more than one
    endpoint and balancers, resources and services each have pairwise
    distinct names, the names in the desired list are pairwise distinct. *)
Theorem desired_names_of_components (app : string) (m : Manifest.t) (r : Release.t)
    (w : World) (D : list container.t) :
  Release.Stage r ≠ StageTest →
  desired p app m r w = Ok D →
  container.Name <$> D = component_name p app <$> components m ∧
  (NoDup (Balancer.Name <$> Manifest.Balancers m) →
   (∀ b, b ∈ Manifest.Balancers m → (length (Balancer.Endpoints b) ≤ 1)%nat) →
   NoDup (Resource.Name <$> Manifest.Resources m) →
   NoDup (Service.Name <$> Manifest.Services m) →
   NoDup (container.Name <$> D)).
Proof.
  intros Hstage HD.
  assert (container.Name <$> D = component_name p app <$> components m) as Hnames.
  { unfold desired in HD.
    apply result_bind_Ok in HD as (c1 & Hc1 & HD).
    apply result_bind_Ok in HD as (c2 & Hc2 & HD).
    apply result_bind_Ok in HD as (c3 & Hc3 & [= <-]).
    unfold balancerContainers in Hc1. rewrite decide_False in Hc1 by done.
    apply result_bind_Ok in Hc1 as (sys & _ & Hc1).
    apply balancerLoop_names in Hc1.
    apply resourceLoop_names in Hc2.
    unfold serviceContainers in Hc3. rewrite decide_False in Hc3 by done.
    apply result_bind_Ok in Hc3 as (sys' & _ & ([m' r'] & _ & Hc3)%result_bind_Ok).
    apply serviceLoop_names in Hc3.
    unfold components. simpl. rewrite !fmap_app, Hc1, Hc2, Hc3. simpl.
    by rewrite <- app_assoc. }
  split; [done|]. intros Hb Hone Hr Hs. rewrite Hnames.
  apply NoDup_fmap_2_strong; [|by apply components_NoDup].
  intros k1 k2 _ _. apply component_name_inj.
Qed.
End DesiredNames.

Lemma desired_names_of_components_witness :
  NoDup (container.Name
           <$> value [] (desired (lib:=Ascii7.lib) (stages:=example_stages)
                           (host:=Sim.host) Example.provider "myapp"
                           (Manifest.mk [Balancer.mk "web" [endpoint_both]] [Example.db]
                              [Example.web])
                           Example.release Example.world)).
Proof.
  eapply (desired_names_of_components (lib:=Ascii7.lib) (stages:=example_stages)
            (host:=Sim.host) Example.provider "myapp"
            (Manifest.mk [Balancer.mk "web" [endpoint_both]] [Example.db] [Example.web])
            Example.release Example.world).
  - discriminate.
  - by_evaluation.
  - apply NoDup_singleton.
  - intros b ->%list_elem_of_singleton. simpl. lia.
  - apply NoDup_singleton.
  - apply NoDup_singleton.
Defined.

(** ** Running the tests, and listing the services *)

Section ManifestTestFacts.
Context {World : Type} {runner : Runner World}.

Lemma Test_loop_runs ns services w ran :
  let out := Test_loop ns services (w, ran) in
  (out.1 = Ok () →
   out.2.2 = ran ++ ((λ s, (Service.Name s, ServiceCommand.Test (Service.Command s)))
                       <$> filter (λ s, ServiceCommand.Test (Service.Command s) ≠ "")
                                  services)) ∧
  (∀ e, out.1 = Err e →
     ∃ pre s post w0,
       services = pre ++ s :: post ∧
       ServiceCommand.Test (Service.Command s) ≠ "" ∧
       Service_run s ns (ServiceCommand.Test (Service.Command s)) w0 = (Err e, out.2.1) ∧
       out.2.2 = ran ++ ((λ s, (Service.Name s, ServiceCommand.Test (Service.Command s)))
                           <$> filter (λ s, ServiceCommand.Test (Service.Command s) ≠ "")
                                      (pre ++ [s]))).
Proof.
  revert w ran. induction services as [|s rest IH]; intros w ran; simpl.
  - split; [by rewrite app_nil_r|done].
  - destruct (decide (ServiceCommand.Test (Service.Command s) ≠ "")) as [Ht|Ht].
    + rewrite filter_cons_True by done. simpl.
      destruct (Service_run s ns (ServiceCommand.Test (Service.Command s)) w)
        as [[[]|e0] w1] eqn:Hrun.
      * destruct (IH w1 (ran ++ [(Service.Name s,
                                  ServiceCommand.Test (Service.Command s))]))
          as [IHok IHerr].
        split.
        -- intros Hok. rewrite (IHok Hok). by rewrite <- app_assoc.
        -- intros e He. destruct (IHerr e He) as (pre & s' & post & w0 & -> & ? & ? & ->).
           exists (s :: pre), s', post, w0. split_and!; [done..|].
           simpl. rewrite filter_cons_True by done. by rewrite <- app_assoc.
      * simpl. split; [done|]. intros e [= <-].
        exists [], s, rest, w. split_and!; [done..|].
        simpl. by rewrite filter_cons_True, filter_nil by done.
    + rewrite filter_cons_False by done.
      destruct (IH w ran) as [IHok IHerr]. split; [done|].
      intros e He. destruct (IHerr e He) as (pre & s' & post & w0 & -> & ? & ? & ->).
      exists (s :: pre), s', post, w0. split_and!; [done..|].
      simpl. by rewrite filter_cons_False by done.
Qed.

(** X16: [Manifest.Test] runs the test commands of the services that have
    one, in the order of the manifest, and no other command. When it
    succeeds it has run them all (none, when no service has a test command);
    when it fails, the error is that of the last command it ran, a test
    command that failed, and it has run the test commands of the services up
    to that one and of none after. *)
Theorem Manifest_Test_runs_the_test_commands (m : Manifest.t) (ns : string) (w : World) :
  let out := Manifest_Test m ns (w, []) in
  (out.1 = Ok () → out.2.2 = test_commands m) ∧
  (∀ e, out.1 = Err e →
     ∃ pre s post w0,
       Manifest.Services m = pre ++ s :: post ∧
       ServiceCommand.Test (Service.Command s) ≠ "" ∧
       Service_run s ns (ServiceCommand.Test (Service.Command s)) w0 = (Err e, out.2.1) ∧
       out.2.2 = test_commands (Manifest.mk (Manifest.Balancers m) (Manifest.Resources m)
                                  (pre ++ [s]))) ∧
  ((∀ s, s ∈ Manifest.Services m → ServiceCommand.Test (Service.Command s) = "") →
   out = (Ok (), (w, []))).
Proof.
  unfold Manifest_Test, test_commands. simpl.
  destruct (Test_loop_runs ns (Manifest.Services m) w []) as [Hok Herr].
  split_and!; [done|done|].
  intros Hnone. clear Hok Herr. generalize (@nil (string * string)).
  induction (Manifest.Services m) as [|s rest IH]; intros ran; simpl; [done|].
  rewrite decide_False by (intros Hne; apply Hne, Hnone; by left).
  apply IH. intros s' Hs'. apply Hnone. by right.
Qed.
End ManifestTestFacts.

Lemma Manifest_Test_runs_the_test_commands_witness :
  (Manifest_Test (runner:=list_runner)
     (Manifest.mk [] [] [plain_service "db"; Example.web]) "ns" ([], [])).2.2
  = test_commands (Manifest.mk [] [] [plain_service "db"; Example.web]).
Proof.
  apply (Manifest_Test_runs_the_test_commands (runner:=list_runner)
           (Manifest.mk [] [] [plain_service "db"; Example.web]) "ns" []).
  by_evaluation.
Defined.

Section ServiceListFacts.
Context {World : Type} {cloud : CloudCollaborators World}.

Lemma ServiceList_loop_Ok app w services ss out :
  ServiceList_loop app w services ss = Ok out →
  ∃ new, out = ss ++ new ∧
    Forall2 (λ s x, TypesService.Name x = Service.Name s ∧
                    appOutput app ("Endpoint" +:+ upperName (Service.Name s)) w
                    = Ok (TypesService.Endpoint x)) services new.
Proof.
  revert ss. induction services as [|s rest IH]; intros ss; simpl.
  - intros [= <-]. exists []. by rewrite app_nil_r.
  - intros (endpoint & Hout & Hrest)%result_bind_Ok.
    apply IH in Hrest as (new & -> & Hall).
    eexists (_ :: new). split; [by rewrite <- app_assoc|]. by constructor.
Qed.

Lemma ServiceList_loop_Err app w pre s post ss err :
  (∀ s', s' ∈ pre →
         ∃ x, appOutput app ("Endpoint" +:+ upperName (Service.Name s')) w = Ok x) →
  appOutput app ("Endpoint" +:+ upperName (Service.Name s)) w = Err err →
  ServiceList_loop app w (pre ++ s :: post) ss = Err err.
Proof.
  revert ss. induction pre as [|s0 pre IH]; intros ss Hpre Hs; simpl.
  - by rewrite Hs.
  - destruct (Hpre s0) as [x ->]; [by left|]. simpl.
    apply IH; [|done]. intros s' Hs'. apply Hpre. by right.
Qed.

(** X17: for an application without a release [ServiceList] returns the
    empty list, whatever the store holds besides. Otherwise it returns one
    entry per service of the release's manifest, in the order of the
    manifest and under the same names, each with the stack output named
    "Endpoint" followed by the service's upper name; and if that output is
    missing for a service, it returns the error and no list. *)
Theorem ServiceList_follows_the_manifest (app : string) (w : World) (a : TypesApp.t) :
  AppGet app w = Ok a →
  (TypesApp.Release a = "" → ServiceList app w = Ok []) ∧
  (∀ r b m,
     TypesApp.Release a ≠ "" →
     ReleaseGet app (TypesApp.Release a) w = Ok r →
     BuildGet app (TypesRelease.Build r) w = Ok b →
     Load (TypesBuild.Manifest b) = Ok m →
     (∀ ss, ServiceList app w = Ok ss →
        TypesService.Name <$> ss = Service.Name <$> Manifest.Services m ∧
        Forall2 (λ s x, appOutput app ("Endpoint" +:+ upperName (Service.Name s)) w
                        = Ok (TypesService.Endpoint x)) (Manifest.Services m) ss) ∧
     (∀ pre s post err,
        Manifest.Services m = pre ++ s :: post →
        (∀ s', s' ∈ pre →
           ∃ x, appOutput app ("Endpoint" +:+ upperName (Service.Name s')) w = Ok x) →
        appOutput app ("Endpoint" +:+ upperName (Service.Name s)) w = Err err →
        ServiceList app w = Err err)).
Proof.
  intros Ha. unfold ServiceList. rewrite Ha. simpl. split.
  - intros ->. by rewrite decide_True.
  - intros r b m Hrel Hr Hb Hm. rewrite decide_False by done.
    rewrite Hr. simpl. rewrite Hb. simpl. rewrite Hm. simpl. split.
    + intros ss (new & -> & Hall)%ServiceList_loop_Ok. simpl. split.
      * induction Hall as [|s x services new [Hname _] _ IH]; [done|].
        rewrite !fmap_cons. by f_equal.
      * eapply Forall2_impl; [exact Hall|]. by intros s x [_ ?].
    + intros pre s post err -> Hpre Hs. by apply ServiceList_loop_Err.
Qed.
End ServiceListFacts.

Lemma ServiceList_follows_the_manifest_witness :
  TypesService.Name <$> [TypesService.mk "web" "EndpointWEB.example.org"]
  = Service.Name <$> Manifest.Services Example.manifest.
Proof.
  refine (proj1 (proj1 (proj2 (ServiceList_follows_the_manifest (cloud:=example_cloud)
            "myapp" [] (TypesApp.mk "myapp" "R1") eq_refl)
            (TypesRelease.mk "B1") (TypesBuild.mk "services: ...") Example.manifest
            _ eq_refl eq_refl eq_refl)
            [TypesService.mk "web" "EndpointWEB.example.org"] _)).
  - discriminate.
  - by_evaluation.
Defined.
